(** * crash-reporting: one run of the NCDOT vehicle-crash poller

    A shallow embedding of [main.go].  One run of the program loads the
    ledger of already-notified identifiers, fetches the incident feed, keeps
    the vehicle crashes, upserts each of them and notifies the new ones,
    clears the stored crashes that left the feed and writes the ledger back.

    The collaborators of the program are modelled as follows.
    - The table [ncdot_incidents] is a finite map from the [id] column to
      the remaining columns of the row ([ON CONFLICT (id)] requires the
      column to be unique).
    - The ledger file is an optional byte string ([None]: the file is
      missing).
    - Every call whose outcome the program inspects ([db.Exec], [db.Query],
      [rows.Scan], [time.LoadLocation], [os.ReadFile], [os.WriteFile], the
      feed download) takes its outcome from the environment [Env] of the
      run.  Calls in the loop over the feed are indexed by the iteration;
      calls in [clearOldCrashes] are indexed by the [id] of the row, which
      the result set holds once.
    - The calls the program only fires ([sendToDiscord],
      [sendClearedNotificationToDiscord]) and the statements sent to the
      store are recorded, in program order, in a trace of [Event]s. *)

From Stdlib Require Import ZArith String Ascii List DecimalString DecimalZ.
From Stdlib Require Import Floats.SpecFloat.
From stdpp Require Import base option list gmap sorting.

Local Open Scope Z_scope.

(** ** Data model *)

(** A [float64] is carried from the feed to the store and to the message
    without any arithmetic on it. *)
Definition float64 : Type := spec_float.

(** Go's [int] on the 64-bit targets the program is built for. *)
Definition int_min : Z := - 2 ^ 63.
Definition int_max : Z := 2 ^ 63 - 1.
Definition is_int (z : Z) : Prop := int_min <= z <= int_max.
Definition is_intb (z : Z) : bool := (int_min <=? z) && (z <=? int_max).

Module Incident.
(** [type Incident struct], field for field. *)
Record t : Type := mk {
  ID : Z;
  Latitude : float64;
  Longitude : float64;
  CommonName : string;
  Reason : string;
  Condition : string;
  IncidentType : string;
  Severity : Z;
  Direction : string;
  Location : string;
  CountyID : Z;
  CountyName : string;
  City : string;
  StartTime : string;
  EndTime : string;
  LastUpdate : string;
  Road : string;
  RouteID : Z;
  LanesClosed : Z;
  LanesTotal : Z;
  Detour : string;
  CrossStreetPrefix : string;
  CrossStreetNumber : Z;
  CrossStreetSuffix : string;
  CrossStreetCommonName : string;
  Event : string;
  CreatedFromConcurrent : bool;
  MovableConstruction : string;
  WorkZoneSpeedLimit : Z
}.
End Incident.

Module ClearedIncident.
(** [type ClearedIncident struct]: just enough for a cleared notification. *)
Record t : Type := mk {
  ID : Z;
  Road : string;
  Location : string;
  City : string
}.
End ClearedIncident.

(** The two values the program writes to the [status] column. *)
Inductive Status : Type := active | cleared.

(** A row of [ncdot_incidents] without its key: the columns named by the
    INSERT statement of [upsertIncident], in that order, [id] excepted. *)
Record StoredIncident : Type := mkStored {
  latitude : float64;
  longitude : float64;
  common_name : string;
  reason : string;
  condition : string;
  incident_type : string;
  severity : Z;
  direction : string;
  location : string;
  county_id : Z;
  county_name : string;
  city : string;
  start_time : string;
  end_time : string;
  last_update : string;
  road : string;
  route_id : Z;
  lanes_closed : Z;
  lanes_total : Z;
  detour : string;
  cross_street_prefix : string;
  cross_street_number : Z;
  cross_street_suffix : string;
  cross_street_common_name : string;
  event : string;
  created_from_concurrent : bool;
  movable_construction : string;
  work_zone_speed_limit : Z;
  status : Status;
  cleared_time : option Z
}.

(** The table, keyed by [id]. *)
Abbreviation Store := (gmap Z StoredIncident).

(** A Go [map[int]bool]; reading a key that is not there gives [false]. *)
Abbreviation IDSet := (gmap Z bool).

Definition index (m : IDSet) (k : Z) : bool := default false (m !! k).

(** The category the program acts on. *)
Definition VehicleCrash : string := "Vehicle Crash".

Definition isVehicleCrash (s : string) : bool := String.eqb s VehicleCrash.

Definition Status_eqb (a b : Status) : bool :=
  match a, b with
  | active, active | cleared, cleared => true
  | _, _ => false
  end.

(** ** Statements of the store *)

(** The row the VALUES clause of [upsertIncident] builds. *)
Definition insertedRow (i : Incident.t) : StoredIncident :=
  {| latitude := Incident.Latitude i;
     longitude := Incident.Longitude i;
     common_name := Incident.CommonName i;
     reason := Incident.Reason i;
     condition := Incident.Condition i;
     incident_type := Incident.IncidentType i;
     severity := Incident.Severity i;
     direction := Incident.Direction i;
     location := Incident.Location i;
     county_id := Incident.CountyID i;
     county_name := Incident.CountyName i;
     city := Incident.City i;
     start_time := Incident.StartTime i;
     end_time := Incident.EndTime i;
     last_update := Incident.LastUpdate i;
     road := Incident.Road i;
     route_id := Incident.RouteID i;
     lanes_closed := Incident.LanesClosed i;
     lanes_total := Incident.LanesTotal i;
     detour := Incident.Detour i;
     cross_street_prefix := Incident.CrossStreetPrefix i;
     cross_street_number := Incident.CrossStreetNumber i;
     cross_street_suffix := Incident.CrossStreetSuffix i;
     cross_street_common_name := Incident.CrossStreetCommonName i;
     event := Incident.Event i;
     created_from_concurrent := Incident.CreatedFromConcurrent i;
     movable_construction := Incident.MovableConstruction i;
     work_zone_speed_limit := Incident.WorkZoneSpeedLimit i;
     status := active;
     cleared_time := None |}.

(** The DO UPDATE SET clause: the row in the table with the listed columns
    taken from the excluded row (the one the INSERT proposed). *)
Definition conflictUpdate (old excluded : StoredIncident) : StoredIncident :=
  {| latitude := latitude excluded;
     longitude := longitude excluded;
     common_name := common_name old;
     reason := reason excluded;
     condition := condition excluded;
     incident_type := incident_type excluded;
     severity := severity excluded;
     direction := direction old;
     location := location old;
     county_id := county_id old;
     county_name := county_name old;
     city := city old;
     start_time := start_time old;
     end_time := end_time excluded;
     last_update := last_update excluded;
     road := road old;
     route_id := route_id old;
     lanes_closed := lanes_closed excluded;
     lanes_total := lanes_total old;
     detour := detour excluded;
     cross_street_prefix := cross_street_prefix old;
     cross_street_number := cross_street_number old;
     cross_street_suffix := cross_street_suffix old;
     cross_street_common_name := cross_street_common_name old;
     event := event old;
     created_from_concurrent := created_from_concurrent old;
     movable_construction := movable_construction old;
     work_zone_speed_limit := work_zone_speed_limit old;
     status := active;
     cleared_time := None |}.

(** INSERT ... ON CONFLICT (id) DO UPDATE SET ..., executed. *)
Definition execUpsert (db : Store) (i : Incident.t) : Store :=
  match db !! Incident.ID i with
  | None => <[Incident.ID i := insertedRow i]> db
  | Some old => <[Incident.ID i := conflictUpdate old (insertedRow i)]> db
  end.

(** UPDATE ncdot_incidents SET status = 'cleared', cleared_time = NOW()
    WHERE id = $1, executed at time [now]. *)
Definition markCleared (now : Z) (r : StoredIncident) : StoredIncident :=
  {| latitude := latitude r;
     longitude := longitude r;
     common_name := common_name r;
     reason := reason r;
     condition := condition r;
     incident_type := incident_type r;
     severity := severity r;
     direction := direction r;
     location := location r;
     county_id := county_id r;
     county_name := county_name r;
     city := city r;
     start_time := start_time r;
     end_time := end_time r;
     last_update := last_update r;
     road := road r;
     route_id := route_id r;
     lanes_closed := lanes_closed r;
     lanes_total := lanes_total r;
     detour := detour r;
     cross_street_prefix := cross_street_prefix r;
     cross_street_number := cross_street_number r;
     cross_street_suffix := cross_street_suffix r;
     cross_street_common_name := cross_street_common_name r;
     event := event r;
     created_from_concurrent := created_from_concurrent r;
     movable_construction := movable_construction r;
     work_zone_speed_limit := work_zone_speed_limit r;
     status := cleared;
     cleared_time := Some now |}.

Definition execClear (now : Z) (db : Store) (id : Z) : Store :=
  alter (markCleared now) id db.

(** SELECT id, road, location, city FROM ncdot_incidents
    WHERE status = 'active' AND incident_type = 'Vehicle Crash'. *)
Definition selectsActiveCrash (r : StoredIncident) : bool :=
  Status_eqb (status r) active && String.eqb (incident_type r) VehicleCrash.

Definition projectRow (kr : Z * StoredIncident) : ClearedIncident.t :=
  ClearedIncident.mk kr.1 (road kr.2) (location kr.2) (city kr.2).

Definition queryActiveCrashes (db : Store) : list ClearedIncident.t :=
  projectRow <$> filter (fun kr => selectsActiveCrash kr.2 = true) (map_to_list db).

(** ** The ledger file format

    [saveSentIncidents] and [loadSentIncidents] go through Go's
    [encoding/json] at the type [map[int]bool].  The two library calls are
    modelled here on that type: [MarshalIndent] as the encoder prints such a
    map, [Unmarshal] as a character-driven scanner in the style of the
    library's own.  The scanner covers what the program can have written,
    and the same with other spacing, member order, signs and leading zeros
    in the keys, and [null] for a value: one object whose keys are strings
    without escape sequences.  An input outside this fragment is reported
    as an error, also where the library would accept it (an escape in a
    key, [null] in place of the object). *)

Module strconv.
(** [strconv.FormatInt(k, 10)], which the encoder uses for integer keys. *)
Definition FormatInt (z : Z) : string := NilZero.string_of_int (Z.to_int z).

Definition digits (s : string) : option Z :=
  Z.of_uint <$> NilZero.uint_of_string s.

(** [strconv.ParseInt(s, 10, 64)], which the decoder uses for integer
    keys: an optional sign, at least one digit, and the range check. *)
Definition ParseInt (s : string) : option Z :=
  let signed :=
    match s with
    | String "+"%char r => digits r
    | String "-"%char r => Z.opp <$> digits r
    | _ => digits s
    end in
  match signed with
  | Some v => if is_intb v then Some v else None
  | None => None
  end.
End strconv.

Module json.
Definition quote : ascii := "034"%char.
Definition backslash : ascii := "092"%char.
Definition newline : ascii := "010"%char.
Definition NL : string := String newline EmptyString.

(** The four white space characters of JSON. *)
Definition isSpace (c : ascii) : bool :=
  Ascii.eqb c " "%char || Ascii.eqb c "009"%char
  || Ascii.eqb c "013"%char || Ascii.eqb c newline.

Definition isControl (c : ascii) : bool := (nat_of_ascii c <? 32)%nat.

(** *** Encoding *)

(** The encoder sorts the members by the text of their keys. *)
Definition keyOrder (a b : Z * bool) : Prop :=
  String.leb (strconv.FormatInt a.1) (strconv.FormatInt b.1) = true.

#[global] Instance keyOrder_dec a b : Decision (keyOrder a b).
Proof. unfold keyOrder. apply _. Defined.

Definition literal (v : bool) : string := if v then "true" else "false".

Definition member (kv : Z * bool) : string :=
  ("  " ++ String quote (strconv.FormatInt kv.1)
        ++ String quote (": " ++ literal kv.2))%string.

Fixpoint members (l : list (Z * bool)) : string :=
  match l with
  | [] => EmptyString
  | [kv] => (member kv ++ NL)%string
  | kv :: l' => (member kv ++ "," ++ NL ++ members l')%string
  end.

(** [json.MarshalIndent(sentIDs, "", "  ")]. *)
Definition MarshalIndent (m : IDSet) : string :=
  match merge_sort keyOrder (map_to_list m) with
  | [] => "{}"%string
  | l => ("{" ++ NL ++ members l ++ "}")%string
  end.

(** *** Decoding *)

Inductive scan : Type :=
| BeginValue                       (* before the opening brace *)
| BeginKeyOrEnd                    (* after the opening brace *)
| BeginKey                         (* after a comma *)
| InKey (key : string)             (* inside the quotes of a key *)
| AfterKey (k : Z)                 (* after a key, before the colon *)
| BeginMember (k : Z)              (* after the colon *)
| InLiteral (k : Z) (v : bool) (rest : string)
| AfterMember                      (* after a value *)
| EndTop.                          (* after the closing brace *)

Definition step (s : scan) (m : IDSet) (c : ascii) : option (scan * IDSet) :=
  match s with
  | BeginValue =>
      if isSpace c then Some (BeginValue, m)
      else if Ascii.eqb c "{"%char then Some (BeginKeyOrEnd, m)
      else None
  | BeginKeyOrEnd =>
      if isSpace c then Some (BeginKeyOrEnd, m)
      else if Ascii.eqb c quote then Some (InKey EmptyString, m)
      else if Ascii.eqb c "}"%char then Some (EndTop, m)
      else None
  | BeginKey =>
      if isSpace c then Some (BeginKey, m)
      else if Ascii.eqb c quote then Some (InKey EmptyString, m)
      else None
  | InKey key =>
      if Ascii.eqb c quote then
        match strconv.ParseInt key with
        | Some k => Some (AfterKey k, m)
        | None => None
        end
      else if Ascii.eqb c backslash || isControl c then None
      else Some (InKey (key ++ String c EmptyString), m)
  | AfterKey k =>
      if isSpace c then Some (AfterKey k, m)
      else if Ascii.eqb c ":"%char then Some (BeginMember k, m)
      else None
  | BeginMember k =>
      if isSpace c then Some (BeginMember k, m)
      else if Ascii.eqb c "t"%char then Some (InLiteral k true "rue", m)
      else if Ascii.eqb c "f"%char then Some (InLiteral k false "alse", m)
      else if Ascii.eqb c "n"%char then Some (InLiteral k false "ull", m)
      else None
  | InLiteral k v rest =>
      match rest with
      | EmptyString => None
      | String x EmptyString =>
          if Ascii.eqb c x then Some (AfterMember, <[k := v]> m) else None
      | String x rest' =>
          if Ascii.eqb c x then Some (InLiteral k v rest', m) else None
      end
  | AfterMember =>
      if isSpace c then Some (AfterMember, m)
      else if Ascii.eqb c ","%char then Some (BeginKey, m)
      else if Ascii.eqb c "}"%char then Some (EndTop, m)
      else None
  | EndTop =>
      if isSpace c then Some (EndTop, m) else None
  end.

(** The scanner run over [data]: the state it ends in, [None] on an
    unexpected character. *)
Fixpoint scanAll (s : scan) (m : IDSet) (data : string) : option (scan * IDSet) :=
  match data with
  | EmptyString => Some (s, m)
  | String c data' =>
      match step s m c with
      | Some (s', m') => scanAll s' m' data'
      | None => None
      end
  end.

(** [json.Unmarshal(data, &sentIDs)] into an empty map; [None] is a non-nil
    error.  The input must end after the closing brace. *)
Definition Unmarshal (data : string) : option IDSet :=
  match scanAll BeginValue ∅ data with
  | Some (EndTop, m) => Some m
  | _ => None
  end.
End json.

(** ** The ledger *)

Inductive LoadError : Type := ReadFileError | UnmarshalError.

(** [loadSentIncidents]: [file] is the content of the file, [None] when it
    does not exist; [read_ok] tells whether [os.ReadFile] succeeds on an
    existing file. *)
Definition loadSentIncidents (read_ok : bool) (file : option string)
  : IDSet + LoadError :=
  match file with
  | None => inl ∅
  | Some data =>
      if negb read_ok then inr ReadFileError
      else if (String.length data =? 0)%nat then inl ∅
      else match json.Unmarshal data with
           | Some sentIDs => inl sentIDs
           | None => inr UnmarshalError
           end
  end.

(** [saveSentIncidents]: returns the file after the call and whether the
    call returned a nil error.  A failed [os.WriteFile] is taken to leave
    the file as it was. *)
Definition saveSentIncidents (write_ok : bool) (file : option string)
    (sentIDs : IDSet) : option string * bool :=
  let data := json.MarshalIndent sentIDs in
  if write_ok then (Some data, true) else (file, false).

(** ** The environment of one run *)

(** What the download and decoding of the feed come to. *)
Inductive FeedResult : Type :=
| FetchError                                  (* http.Get fails *)
| BodyReadError                               (* io.ReadAll fails *)
| DecodeError                                 (* json.Unmarshal fails *)
| Decoded (allIncidents : list Incident.t).

Record Env : Type := mkEnv {
  db_open_ok : bool;                 (* sql.Open *)
  db_ping_ok : bool;                 (* db.Ping *)
  read_file_ok : bool;               (* os.ReadFile, when the file exists *)
  feed : FeedResult;
  exec_upsert_ok : nat -> bool;      (* db.Exec in upsertIncident, per iteration *)
  load_location_ok : nat -> bool;    (* time.LoadLocation, per iteration *)
  time_parse : string -> option Z;   (* time.Parse(time.RFC3339, s) *)
  format_eastern : Z -> string;      (* t.In(loc).Format("Mon, Jan 2, 3:04 PM EST") *)
  query_ok : bool;                   (* db.Query in clearOldCrashes *)
  scan_ok : Z -> bool;               (* rows.Scan, per row (by its id) *)
  exec_clear_ok : Z -> bool;         (* db.Exec in clearOldCrashes, per crash.ID *)
  now : Z;                           (* NOW() *)
  write_file_ok : bool               (* os.WriteFile *)
}.

(** What a run does to the outside, in program order. *)
Inductive Event : Type :=
| Upsert (incident : Incident.t) (ok : bool)
    (* upsertIncident(db, crash), and whether it returned nil *)
| NotifyNew (incident : Incident.t) (formattedTime : string)
    (* sendToDiscord(webhookURL, crash, formattedTime) *)
| QueryActive (ok : bool)
    (* the SELECT of clearOldCrashes *)
| MarkCleared (id : Z) (ok : bool)
    (* the UPDATE of clearOldCrashes *)
| NotifyCleared (incident : ClearedIncident.t)
    (* sendClearedNotificationToDiscord(webhookURL, crash) *)
| WriteLedger (data : string) (ok : bool).
    (* os.WriteFile(stateFilename, data, 0644) *)

(** The text of the cleared notification, after its two-line heading. *)
Definition clearedMessage (incident : ClearedIncident.t) : string :=
  ("**Road:** " ++ ClearedIncident.Road incident ++ json.NL
   ++ "**Location:** " ++ ClearedIncident.Location incident ++ json.NL
   ++ "**City:** " ++ ClearedIncident.City incident)%string.

(** ** The program *)

(** [sendToDiscord] and [sendClearedNotificationToDiscord] post a message
    and return nothing: a failure to build or send it, or a response
    outside 2xx, is logged and has no other effect.  Each is the event of
    its call. *)
Definition sendToDiscord (incident : Incident.t) (formattedTime : string)
  : list Event :=
  [NotifyNew incident formattedTime].

Definition sendClearedNotificationToDiscord (incident : ClearedIncident.t)
  : list Event :=
  [NotifyCleared incident].

(** [upsertIncident]: the store after the call and whether it returned a
    nil error.  A failed statement changes nothing. *)
Definition upsertIncident (ok : bool) (db : Store) (incident : Incident.t)
  : Store * bool :=
  if ok then (execUpsert db incident, true) else (db, false).

(** The value of [formattedTime] in the loop of [main]. *)
Definition formattedTime (e : Env) (crash : Incident.t) : string :=
  match time_parse e (Incident.StartTime crash) with
  | None => Incident.StartTime crash
  | Some parsedTime => format_eastern e parsedTime
  end.

(** The variables the loop of [main] over [vehicleCrashes] updates, and the
    events it has produced. *)
Record Loop : Type := mkLoop {
  l_db : Store;
  l_sentIDs : IDSet;
  l_trace : list Event
}.

(** One iteration of [for _, crash := range vehicleCrashes], the [n]-th. *)
Definition processCrash (e : Env) (n : nat) (crash : Incident.t) (s : Loop)
  : Loop :=
  let '(db1, ok) := upsertIncident (exec_upsert_ok e n) (l_db s) crash in
  let tr1 := l_trace s ++ [Upsert crash ok] in
  if negb (index (l_sentIDs s) (Incident.ID crash)) then
    if load_location_ok e n then
      mkLoop db1 (<[Incident.ID crash := true]> (l_sentIDs s))
             (tr1 ++ sendToDiscord crash (formattedTime e crash))
    else mkLoop db1 (l_sentIDs s) tr1
  else mkLoop db1 (l_sentIDs s) tr1.

Fixpoint processCrashes (e : Env) (n : nat) (vehicleCrashes : list Incident.t)
    (s : Loop) : Loop :=
  match vehicleCrashes with
  | [] => s
  | crash :: rest => processCrashes e (S n) rest (processCrash e n crash s)
  end.

(** The rows of the result set whose [rows.Scan] succeeds. *)
Fixpoint scanRows (e : Env) (rows : list ClearedIncident.t)
  : list ClearedIncident.t :=
  match rows with
  | [] => []
  | r :: rows' =>
      if scan_ok e (ClearedIncident.ID r) then r :: scanRows e rows'
      else scanRows e rows'
  end.

(** One iteration of [for _, crash := range crashesToClear]. *)
Definition clearCrash (e : Env) (crash : ClearedIncident.t)
    (s : Store * list Event) : Store * list Event :=
  if exec_clear_ok e (ClearedIncident.ID crash) then
    (execClear (now e) s.1 (ClearedIncident.ID crash),
     s.2 ++ [MarkCleared (ClearedIncident.ID crash) true]
         ++ sendClearedNotificationToDiscord crash)
  else (s.1, s.2 ++ [MarkCleared (ClearedIncident.ID crash) false]).

Fixpoint clearCrashes (e : Env) (crashesToClear : list ClearedIncident.t)
    (s : Store * list Event) : Store * list Event :=
  match crashesToClear with
  | [] => s
  | crash :: rest => clearCrashes e rest (clearCrash e crash s)
  end.

Definition crashesToClear (e : Env) (db : Store) (currentCrashIDs : IDSet)
  : list ClearedIncident.t :=
  let activeDbCrashes := scanRows e (queryActiveCrashes db) in
  filter (fun dbCrash => index currentCrashIDs (ClearedIncident.ID dbCrash) = false)
         activeDbCrashes.

(** [clearOldCrashes]: the store and the events after the call, and whether
    it returned a nil error. *)
Definition clearOldCrashes (e : Env) (db : Store) (currentCrashIDs : IDSet)
  : Store * list Event * bool :=
  if query_ok e then
    (clearCrashes e (crashesToClear e db currentCrashIDs) (db, [QueryActive true]),
     true)
  else (db, [QueryActive false], false).

(** What persists from one run to the next. *)
Record World : Type := mkWorld {
  database : Store;
  ledger_file : option string
}.

Record Result : Type := mkResult {
  exit_status : Z;
  final : World;
  trace : list Event
}.

(** [log.Fatalf]: the process exits with status 1 on the spot. *)
Definition fatal (w : World) : Result := mkResult 1 w [].

(** The filter of [main]. *)
Definition vehicleCrashesOf (allIncidents : list Incident.t) : list Incident.t :=
  filter (fun incident => isVehicleCrash (Incident.IncidentType incident) = true)
         allIncidents.

(** The map [currentCrashIDs] of [main]. *)
Definition currentCrashIDsOf (vehicleCrashes : list Incident.t) : IDSet :=
  foldl (fun m crash => <[Incident.ID crash := true]> m) ∅ vehicleCrashes.

(** The part of [main] after the feed has been decoded. *)
Definition reconcile (e : Env) (w : World) (sentIDs : IDSet)
    (allIncidents : list Incident.t) : Result :=
  let vehicleCrashes := vehicleCrashesOf allIncidents in
  let currentCrashIDs := currentCrashIDsOf vehicleCrashes in
  let s := processCrashes e 0 vehicleCrashes (mkLoop (database w) sentIDs []) in
  let '(db2, tr2, _) := clearOldCrashes e (l_db s) currentCrashIDs in
  let '(file, ok) := saveSentIncidents (write_file_ok e) (ledger_file w) (l_sentIDs s) in
  mkResult 0 (mkWorld db2 file)
           (l_trace s ++ tr2 ++ [WriteLedger (json.MarshalIndent (l_sentIDs s)) ok]).

Definition main (e : Env) (w : World) : Result :=
  if negb (db_open_ok e) then fatal w
  else if negb (db_ping_ok e) then fatal w
  else
    match loadSentIncidents (read_file_ok e) (ledger_file w) with
    | inr _ => fatal w
    | inl sentIDs =>
        match feed e with
        | FetchError | BodyReadError | DecodeError => fatal w
        | Decoded allIncidents => reconcile e w sentIDs allIncidents
        end
    end.

(** Consecutive runs: each starts from what the one before left. *)
Fixpoint runs (es : list Env) (w : World) : list Result :=
  match es with
  | [] => []
  | e :: es' => let r := main e w in r :: runs es' (final r)
  end.

(** * Vocabulary of the properties *)

(** ** The upsert statement *)

(** The columns the DO UPDATE SET clause takes from the incident. *)
Definition refreshed (row : StoredIncident) (i : Incident.t) : Prop :=
  latitude row = Incident.Latitude i
  /\ longitude row = Incident.Longitude i
  /\ reason row = Incident.Reason i
  /\ condition row = Incident.Condition i
  /\ incident_type row = Incident.IncidentType i
  /\ severity row = Incident.Severity i
  /\ end_time row = Incident.EndTime i
  /\ last_update row = Incident.LastUpdate i
  /\ lanes_closed row = Incident.LanesClosed i
  /\ detour row = Incident.Detour i.

(** Every other column of the row but [status] and [cleared_time]. *)
Definition kept (row old : StoredIncident) : Prop :=
  common_name row = common_name old
  /\ direction row = direction old
  /\ location row = location old
  /\ county_id row = county_id old
  /\ county_name row = county_name old
  /\ city row = city old
  /\ start_time row = start_time old
  /\ road row = road old
  /\ route_id row = route_id old
  /\ lanes_total row = lanes_total old
  /\ cross_street_prefix row = cross_street_prefix old
  /\ cross_street_number row = cross_street_number old
  /\ cross_street_suffix row = cross_street_suffix old
  /\ cross_street_common_name row = cross_street_common_name old
  /\ event row = event old
  /\ created_from_concurrent row = created_from_concurrent old
  /\ movable_construction row = movable_construction old
  /\ work_zone_speed_limit row = work_zone_speed_limit old.

(** ** The loop over the vehicle crashes *)

(** Whether the [n]-th iteration reaches [sendToDiscord]. *)
Definition notifies (e : Env) (n : nat) (crash : Incident.t) (sentIDs : IDSet)
  : bool :=
  negb (index sentIDs (Incident.ID crash)) && load_location_ok e n.

(** The events of the [n]-th iteration. *)
Definition iterationEvents (e : Env) (n : nat) (crash : Incident.t)
    (sentIDs : IDSet) : list Event :=
  Upsert crash (exec_upsert_ok e n)
  :: (if notifies e n crash sentIDs
      then [NotifyNew crash (formattedTime e crash)] else []).

Definition markSent (e : Env) (n : nat) (crash : Incident.t) (sentIDs : IDSet)
  : IDSet :=
  if notifies e n crash sentIDs then <[Incident.ID crash := true]> sentIDs
  else sentIDs.

(** The events of the loop, iteration by iteration. *)
Fixpoint loopEvents (e : Env) (n : nat) (vehicleCrashes : list Incident.t)
    (sentIDs : IDSet) : list (list Event) :=
  match vehicleCrashes with
  | [] => []
  | crash :: rest =>
      iterationEvents e n crash sentIDs
      :: loopEvents e (S n) rest (markSent e n crash sentIDs)
  end.

Fixpoint loopSent (e : Env) (n : nat) (vehicleCrashes : list Incident.t)
    (sentIDs : IDSet) : IDSet :=
  match vehicleCrashes with
  | [] => sentIDs
  | crash :: rest => loopSent e (S n) rest (markSent e n crash sentIDs)
  end.

(** ** Fatal errors *)

Definition feedFails (f : FeedResult) : Prop :=
  match f with
  | Decoded _ => False
  | _ => True
  end.

(** ** Counting events *)

Definition countEvents (p : Event -> bool) (tr : list Event) : nat :=
  length (filter (fun ev => p ev = true) tr).

Definition isNotifyNewFor (id : Z) (ev : Event) : bool :=
  match ev with
  | NotifyNew incident _ => Incident.ID incident =? id
  | _ => false
  end.

Definition isNotifyClearedFor (id : Z) (ev : Event) : bool :=
  match ev with
  | NotifyCleared incident => ClearedIncident.ID incident =? id
  | _ => false
  end.

(** The events of the loop over the feed, and those of [clearOldCrashes]. *)
Definition isLoopEvent (ev : Event) : Prop :=
  match ev with
  | Upsert _ _ | NotifyNew _ _ => True
  | _ => False
  end.

Definition isClearEvent (ev : Event) : Prop :=
  match ev with
  | QueryActive _ | MarkCleared _ _ | NotifyCleared _ => True
  | _ => False
  end.

(** ** The clear pass *)

Definition clearEvents (e : Env) (crash : ClearedIncident.t) : list Event :=
  if exec_clear_ok e (ClearedIncident.ID crash)
  then [MarkCleared (ClearedIncident.ID crash) true; NotifyCleared crash]
  else [MarkCleared (ClearedIncident.ID crash) false].

Definition clearStore (e : Env) (db : Store) (crash : ClearedIncident.t) : Store :=
  if exec_clear_ok e (ClearedIncident.ID crash)
  then execClear (now e) db (ClearedIncident.ID crash) else db.

(** ** Shape of a run *)

(** The run gets as far as the loop: the store answers, the ledger loads as
    [sentIDs] and the feed decodes as [all]. *)
Definition completes (e : Env) (w : World) (sentIDs : IDSet)
    (all : list Incident.t) : Prop :=
  db_open_ok e = true
  /\ db_ping_ok e = true
  /\ loadSentIncidents (read_file_ok e) (ledger_file w) = inl sentIDs
  /\ feed e = Decoded all.

(** ** Order of the passes *)

(** What one iteration of the loop over the feed may produce for [crash]:
    its upsert, then at most its notification. *)
Definition iterationShape (e : Env) (crash : Incident.t) (evs : list Event)
  : Prop :=
  exists ok,
    evs = [Upsert crash ok]
    \/ evs = [Upsert crash ok; NotifyNew crash (formattedTime e crash)].

(** ** The category filter *)

(** The environment [e] with another feed. *)
Definition withFeed (e : Env) (f : FeedResult) : Env :=
  {| db_open_ok := db_open_ok e; db_ping_ok := db_ping_ok e;
     read_file_ok := read_file_ok e;
     feed := f;
     exec_upsert_ok := exec_upsert_ok e;
     load_location_ok := load_location_ok e;
     time_parse := time_parse e;
     format_eastern := format_eastern e;
     query_ok := query_ok e;
     scan_ok := scan_ok e;
     exec_clear_ok := exec_clear_ok e;
     now := now e;
     write_file_ok := write_file_ok e |}.

(** ** The ledger round trip *)

(** The characters a key may hold as they are. *)
Definition keyChar (c : ascii) : bool :=
  negb (Ascii.eqb c json.quote)
  && negb (Ascii.eqb c json.backslash || json.isControl c).

Fixpoint allKeyChars (s : string) : bool :=
  match s with
  | EmptyString => true
  | String c s' => keyChar c && allKeyChars s'
  end.

Definition beginsKey (s : json.scan) : Prop :=
  s = json.BeginKey \/ s = json.BeginKeyOrEnd.

Definition putMember (m : IDSet) (kv : Z * bool) : IDSet := <[kv.1 := kv.2]> m.

(** ** Keys of a loaded ledger *)

Definition intKeys (m : IDSet) : Prop := map_Forall (fun k _ => is_int k) m.

Definition scanInt (s : json.scan) : Prop :=
  match s with
  | json.AfterKey k | json.BeginMember k | json.InLiteral k _ _ => is_int k
  | _ => True
  end.

(** ** Notifying once *)

(** The new-incident notifications for [id] over consecutive runs. *)
Fixpoint totalNew (id : Z) (rs : list Result) : nat :=
  match rs with
  | [] => 0%nat
  | r :: rs' => (countEvents (isNotifyNewFor id) (trace r) + totalNew id rs')%nat
  end.

(** A run in which the store answers, the ledger file can be read and is
    written back, the location loads, and the feed decodes, holds [id]
    among its vehicle crashes, and carries identifiers within Go's [int]. *)
Definition steadyRun (id : Z) (e : Env) : Prop :=
  db_open_ok e = true
  /\ db_ping_ok e = true
  /\ read_file_ok e = true
  /\ write_file_ok e = true
  /\ (forall n, load_location_ok e n = true)
  /\ exists all,
       feed e = Decoded all
       /\ id ∈ Incident.ID <$> vehicleCrashesOf all
       /\ Forall (fun c => is_int (Incident.ID c)) all.

(** ** Whole runs *)



Definition isMarkClearedFor (id : Z) (ev : Event) : bool :=
  match ev with
  | MarkCleared id' _ => id' =? id
  | _ => false
  end.

(** The incidents of the calls to [upsertIncident], in the order of the calls. *)
Definition upserted (tr : list Event) : list Incident.t :=
  omap (fun ev => match ev with Upsert incident _ => Some incident | _ => None end) tr.

(** The events that are neither a notification nor a clearance. *)
Definition isQuiet (ev : Event) : Prop :=
  match ev with
  | Upsert _ _ | QueryActive _ | WriteLedger _ _ => True
  | _ => False
  end.

(** * Sample data *)

Definition zero64 : float64 := S754_zero false.

(** A feed record with the given identifier, category and start time. *)
Definition sample (id : Z) (incidentType start : string) : Incident.t :=
  Incident.mk id zero64 zero64 "" "" "" incidentType 2 "" "Exit 280" 92 "Wake"
              "Raleigh" start "" "" "I-40" 40 1 4 "" "" 0 "" "" "" false "" 0.

Definition crash (id : Z) : Incident.t := sample id VehicleCrash "not a date".
Definition closure (id : Z) : Incident.t := sample id "Road Closure" "not a date".

(** An environment with the given feed in which the store answers and the
    ledger file can be read; the flags tell whether the location loads,
    the query of [clearOldCrashes] succeeds, its rows scan, its UPDATEs
    succeed, and the ledger file can be written.  No start time parses. *)
Definition scenario (f : FeedResult) (zone query scan clear write : bool) : Env :=
  {| db_open_ok := true; db_ping_ok := true; read_file_ok := true;
     feed := f;
     exec_upsert_ok := fun _ => true;
     load_location_ok := fun _ => zone;
     time_parse := fun _ => None;
     format_eastern := fun _ => EmptyString;
     query_ok := query;
     scan_ok := fun _ => scan;
     exec_clear_ok := fun _ => clear;
     now := 1000;
     write_file_ok := write |}.

(** Every call succeeds on a feed of [l]. *)
Definition calm (l : list Incident.t) : Env :=
  scenario (Decoded l) true true true true true.

(** [time.LoadLocation] fails. *)
Definition noZone (l : list Incident.t) : Env :=
  scenario (Decoded l) false true true true true.

(** The query of [clearOldCrashes] fails. *)
Definition noQuery (l : list Incident.t) : Env :=
  scenario (Decoded l) true false true true true.

(** [rows.Scan] fails. *)
Definition noScan (l : list Incident.t) : Env :=
  scenario (Decoded l) true true false true true.

(** The UPDATE of [clearOldCrashes] fails. *)
Definition noClear (l : list Incident.t) : Env :=
  scenario (Decoded l) true true true false true.

(** [os.WriteFile] fails. *)
Definition noWrite (l : list Incident.t) : Env :=
  scenario (Decoded l) true true true true false.

(** The feed cannot be used. *)
Definition noFeed (f : FeedResult) : Env :=
  scenario f true true true true true.

Definition emptyWorld : World := mkWorld ∅ None.

(** A world whose store holds crash 7 as active and whose ledger knows it. *)
Definition world7 : World :=
  mkWorld {[ 7 := insertedRow (crash 7) ]} (Some (json.MarshalIndent {[ 7 := true ]})).


(** * Lemmas and theorems *)

(** ** The upsert statement *)

Lemma execUpsert_other (db : Store) (i : Incident.t) (k : Z) :
  k <> Incident.ID i -> execUpsert db i !! k = db !! k.
Proof.
  intros Hk. unfold execUpsert.
  destruct (db !! Incident.ID i); by rewrite lookup_insert_ne.
Qed.

Lemma execUpsert_same (db : Store) (i : Incident.t) :
  execUpsert db i !! Incident.ID i
  = Some (match db !! Incident.ID i with
          | Some old => conflictUpdate old (insertedRow i)
          | None => insertedRow i
          end).
Proof.
  unfold execUpsert. destruct (db !! Incident.ID i); by rewrite lookup_insert_eq.
Qed.

(** C3.  Upsert contract: a successful [upsertIncident] leaves under the
    identifier of the incident a row with status active and no cleared
    time, whatever the row was before; when a row was there (the conflict),
    exactly latitude, longitude, reason, condition, incident type,
    severity, end time, last update, lanes closed and detour are taken from
    the incident and every other column keeps its stored value; when none
    was there the row is the inserted one; rows under other identifiers are
    not touched. *)
Theorem upsert_contract (ok : bool) (db db' : Store) (i : Incident.t) :
  upsertIncident ok db i = (db', true) ->
  (exists row,
      db' !! Incident.ID i = Some row
      /\ status row = active
      /\ cleared_time row = None
      /\ refreshed row i
      /\ match db !! Incident.ID i with
         | Some old => kept row old
         | None => row = insertedRow i
         end)
  /\ (forall k, k <> Incident.ID i -> db' !! k = db !! k).
Proof.
  unfold upsertIncident. destruct ok; intros [= <-]. split.
  - eexists. split; [apply execUpsert_same|].
    destruct (db !! Incident.ID i) as [old|];
      repeat split; reflexivity.
  - intros k Hk. by apply execUpsert_other.
Qed.

(** A row that was cleared at time 5, upserted again with new values. *)
Lemma upsert_contract_witness :
  exists row,
    execUpsert {[ 7 := markCleared 5 (insertedRow (crash 7)) ]}
               (sample 7 VehicleCrash "2025-01-01T00:00:00Z") !! 7 = Some row
    /\ status row = active /\ cleared_time row = None
    /\ start_time row = "not a date"%string.
Proof.
  destruct (upsert_contract true
              {[ 7 := markCleared 5 (insertedRow (crash 7)) ]}
              (execUpsert {[ 7 := markCleared 5 (insertedRow (crash 7)) ]}
                          (sample 7 VehicleCrash "2025-01-01T00:00:00Z"))
              (sample 7 VehicleCrash "2025-01-01T00:00:00Z") eq_refl)
    as [[row (Hrow & Hst & Hct & _ & Hkept)] _].
  exists row. repeat split; try assumption.
  change (Incident.ID (sample 7 VehicleCrash "2025-01-01T00:00:00Z")) with 7 in Hkept.
  rewrite lookup_singleton_eq in Hkept.
  destruct Hkept as (_ & _ & _ & _ & _ & _ & Hstart & _). exact Hstart.
Defined.

(** ** The loop over the vehicle crashes *)

Lemma processCrash_eq (e : Env) (n : nat) (crash : Incident.t) (s : Loop) :
  processCrash e n crash s
  = mkLoop (upsertIncident (exec_upsert_ok e n) (l_db s) crash).1
           (markSent e n crash (l_sentIDs s))
           (l_trace s ++ iterationEvents e n crash (l_sentIDs s)).
Proof.
  unfold processCrash, markSent, iterationEvents, notifies, upsertIncident.
  destruct (exec_upsert_ok e n), (index (l_sentIDs s) (Incident.ID crash)),
    (load_location_ok e n); simpl; rewrite <- ?app_assoc; reflexivity.
Qed.

Lemma processCrashes_trace (e : Env) (l : list Incident.t) :
  forall n s,
    l_trace (processCrashes e n l s)
    = l_trace s ++ concat (loopEvents e n l (l_sentIDs s)).
Proof.
  induction l as [|crash rest IH]; intros n s; simpl.
  - by rewrite app_nil_r.
  - rewrite IH, processCrash_eq. simpl. by rewrite <- app_assoc.
Qed.

Lemma processCrashes_sent (e : Env) (l : list Incident.t) :
  forall n s, l_sentIDs (processCrashes e n l s) = loopSent e n l (l_sentIDs s).
Proof.
  induction l as [|crash rest IH]; intros n s; simpl; [done|].
  by rewrite IH, processCrash_eq.
Qed.

(** ** Fatal errors *)

(** C6.  Fatal-abort atomicity: when the feed cannot be fetched, its body
    cannot be read or it does not decode, the run exits with status 1, has
    sent no statement to the store, no notification and no write of the
    ledger file, and leaves the store and the ledger file as they were. *)
Theorem fatal_abort_untouched (e : Env) (w : World) :
  feedFails (feed e) ->
  exit_status (main e w) = 1
  /\ exit_status (main e w) <> 0
  /\ final (main e w) = w
  /\ trace (main e w) = [].
Proof.
  intros Hf. unfold main.
  destruct (db_open_ok e), (db_ping_ok e); simpl; try by repeat split.
  destruct (loadSentIncidents _ _); [|by repeat split].
  destruct (feed e); simpl in *; try by repeat split.
Qed.

(** The scenario of the specification: the ledger knows an identifier and
    the download fails. *)
Lemma fatal_abort_untouched_witness :
  exit_status (main (noFeed FetchError) world7) = 1
  /\ exit_status (main (noFeed FetchError) world7) <> 0
  /\ final (main (noFeed FetchError) world7) = world7
  /\ trace (main (noFeed FetchError) world7) = [].
Proof. exact (fatal_abort_untouched (noFeed FetchError) world7 I). Defined.

(** ** Counting events *)

Lemma countEvents_nil p : countEvents p [] = 0%nat.
Proof. reflexivity. Qed.

Lemma countEvents_app p tr1 tr2 :
  countEvents p (tr1 ++ tr2) = (countEvents p tr1 + countEvents p tr2)%nat.
Proof. unfold countEvents. by rewrite filter_app, length_app. Qed.

Lemma countEvents_cons p ev tr :
  countEvents p (ev :: tr)
  = ((if p ev then 1 else 0) + countEvents p tr)%nat.
Proof.
  unfold countEvents. rewrite filter_cons.
  destruct (decide (p ev = true)) as [H|H].
  - by rewrite H.
  - by destruct (p ev).
Qed.

Lemma countEvents_none p tr :
  (forall ev, ev ∈ tr -> p ev = false) -> countEvents p tr = 0%nat.
Proof.
  induction tr as [|ev tr IH]; intros H; [done|].
  rewrite countEvents_cons, (H ev) by apply list_elem_of_here.
  apply IH. intros ev' Hin. apply H. by apply list_elem_of_further.
Qed.

Lemma countEvents_pos p tr :
  (0 < countEvents p tr)%nat -> exists ev, ev ∈ tr /\ p ev = true.
Proof.
  induction tr as [|ev tr IH]; [rewrite countEvents_nil; lia|].
  rewrite countEvents_cons. destruct (p ev) eqn:Hp.
  - intros _. exists ev. split; [apply list_elem_of_here | done].
  - intros H. destruct (IH H) as (ev' & Hin & Hev').
    exists ev'. split; [by apply list_elem_of_further | done].
Qed.

(** ** The clear pass *)

Lemma clearCrashes_eq (e : Env) (l : list ClearedIncident.t) :
  forall s,
    clearCrashes e l s
    = (foldl (clearStore e) s.1 l, s.2 ++ concat (clearEvents e <$> l)).
Proof.
  induction l as [|c l IH]; intros [db tr]; simpl.
  - by rewrite app_nil_r.
  - rewrite IH. unfold clearCrash, clearStore, clearEvents. simpl.
    destruct (exec_clear_ok e (ClearedIncident.ID c)); simpl;
      by rewrite <- app_assoc.
Qed.

Lemma markCleared_idemp now r : markCleared now (markCleared now r) = markCleared now r.
Proof. reflexivity. Qed.

Lemma clearStore_lookup e db c k :
  clearStore e db c !! k
  = if decide (ClearedIncident.ID c = k /\ exec_clear_ok e k = true)
    then markCleared (now e) <$> db !! k else db !! k.
Proof.
  unfold clearStore, execClear. case_decide as H.
  - destruct H as [-> ->]. by rewrite lookup_alter_eq.
  - destruct (exec_clear_ok e (ClearedIncident.ID c)) eqn:Hok; [|done].
    rewrite lookup_alter_ne; [done|]. intros Heq. apply H.
    split; [done|]. by rewrite <- Heq.
Qed.

(** A failed UPDATE leaves the row as it was. *)
Lemma clear_failed_lookup e l k :
  exec_clear_ok e k = false ->
  forall db, foldl (clearStore e) db l !! k = db !! k.
Proof.
  intros Hok. induction l as [|c l IH]; intros db; simpl; [done|].
  rewrite IH, clearStore_lookup. case_decide as H; [|done].
  destruct H as [_ H]. congruence.
Qed.

Lemma clear_absent_lookup e l k :
  k ∉ ClearedIncident.ID <$> l ->
  forall db, foldl (clearStore e) db l !! k = db !! k.
Proof.
  induction l as [|c l IH]; intros Hk db; simpl; [done|].
  rewrite fmap_cons, not_elem_of_cons in Hk. destruct Hk as [Hne Hk].
  rewrite IH, clearStore_lookup by done. case_decide as H; [|done].
  destruct H as [H _]. congruence.
Qed.

(** A successful UPDATE marks the row. *)
Lemma clear_done_lookup e l k :
  exec_clear_ok e k = true ->
  k ∈ ClearedIncident.ID <$> l ->
  forall db, foldl (clearStore e) db l !! k = markCleared (now e) <$> db !! k.
Proof.
  intros Hok. induction l as [|c l IH]; intros Hk db; simpl.
  - by apply elem_of_nil in Hk.
  - destruct (decide (k ∈ ClearedIncident.ID <$> l)) as [Hin|Hout].
    + rewrite IH, clearStore_lookup by done. case_decide; [|done].
      destruct (db !! k); simpl; [by rewrite markCleared_idemp | done].
    + rewrite clear_absent_lookup, clearStore_lookup by done.
      rewrite fmap_cons, elem_of_cons in Hk. destruct Hk as [->|Hk]; [|done].
      by rewrite decide_True.
Qed.

Lemma count_absent_id (id : Z) (l : list ClearedIncident.t) :
  id ∉ ClearedIncident.ID <$> l ->
  length (filter (fun c => ClearedIncident.ID c = id) l) = 0%nat.
Proof.
  induction l as [|c l IH]; intros Hout; [done|].
  rewrite fmap_cons, not_elem_of_cons in Hout. destruct Hout as [Hne Hout].
  rewrite filter_cons. case_decide; [congruence | by apply IH].
Qed.

Lemma count_same_id (id : Z) (l : list ClearedIncident.t) :
  NoDup (ClearedIncident.ID <$> l) ->
  id ∈ ClearedIncident.ID <$> l ->
  length (filter (fun c => ClearedIncident.ID c = id) l) = 1%nat.
Proof.
  induction l as [|c l IH]; intros Hnd Hin; [by apply elem_of_nil in Hin|].
  rewrite fmap_cons in Hnd, Hin. apply NoDup_cons in Hnd as [Hc Hnd].
  rewrite filter_cons. case_decide as Hid.
  - subst id. simpl. f_equal. by apply count_absent_id.
  - apply elem_of_cons in Hin as [->|Hin]; [done | by apply IH].
Qed.

Lemma count_cleared_events (e : Env) (id : Z) (l : list ClearedIncident.t) :
  countEvents (isNotifyClearedFor id) (concat (clearEvents e <$> l))
  = if exec_clear_ok e id
    then length (filter (fun c => ClearedIncident.ID c = id) l) else 0%nat.
Proof.
  induction l as [|c l IH]; csimpl.
  - rewrite countEvents_nil. by destruct (exec_clear_ok e id).
  - rewrite countEvents_app, IH, filter_cons. unfold clearEvents.
    case_decide as Hid.
    + subst id. destruct (exec_clear_ok e (ClearedIncident.ID c));
        rewrite ?countEvents_cons, ?countEvents_nil; simpl;
        rewrite ?Z.eqb_refl; done.
    + apply Z.eqb_neq in Hid.
      destruct (exec_clear_ok e (ClearedIncident.ID c)), (exec_clear_ok e id);
        rewrite ?countEvents_cons, ?countEvents_nil; simpl; rewrite ?Hid; done.
Qed.

Lemma elem_of_clear_events (e : Env) (c : ClearedIncident.t)
    (l : list ClearedIncident.t) :
  NotifyCleared c ∈ concat (clearEvents e <$> l)
  <-> c ∈ l /\ exec_clear_ok e (ClearedIncident.ID c) = true.
Proof.
  induction l as [|c' l IH]; csimpl.
  - split; [intros H; by apply elem_of_nil in H | intros [H _]; by apply elem_of_nil in H].
  - rewrite elem_of_app, IH, elem_of_cons. unfold clearEvents. split.
    + intros [H|[H1 H2]]; [|by auto].
      destruct (exec_clear_ok e (ClearedIncident.ID c')) eqn:Hok.
      * apply elem_of_cons in H as [H|H]; [discriminate|].
        apply list_elem_of_singleton in H. injection H as ->. by auto.
      * apply list_elem_of_singleton in H. discriminate.
    + intros [[->|H] Hok]; [|by auto]. left. rewrite Hok.
      apply list_elem_of_further, list_elem_of_here.
Qed.

Lemma elem_of_clear_failed (e : Env) (c : ClearedIncident.t)
    (l : list ClearedIncident.t) :
  c ∈ l -> exec_clear_ok e (ClearedIncident.ID c) = false ->
  MarkCleared (ClearedIncident.ID c) false ∈ concat (clearEvents e <$> l).
Proof.
  intros Hin Hok. induction l as [|c' l IH]; [by apply elem_of_nil in Hin|].
  csimpl. apply elem_of_app. apply elem_of_cons in Hin as [<-|Hin].
  - left. unfold clearEvents. rewrite Hok. apply list_elem_of_here.
  - right. by apply IH.
Qed.

(** *** The result set of the query *)

Lemma elem_of_queryActiveCrashes (db : Store) (c : ClearedIncident.t) :
  c ∈ queryActiveCrashes db
  <-> exists r, db !! ClearedIncident.ID c = Some r
             /\ selectsActiveCrash r = true
             /\ c = projectRow (ClearedIncident.ID c, r).
Proof.
  unfold queryActiveCrashes. rewrite list_elem_of_fmap. split.
  - intros ([k r] & -> & Hin). apply list_elem_of_filter in Hin as [Hsel Hin].
    apply elem_of_map_to_list in Hin. exists r. by repeat split.
  - intros (r & Hr & Hsel & Hc). exists (ClearedIncident.ID c, r).
    split; [done|]. apply list_elem_of_filter. split; [done|].
    by apply elem_of_map_to_list.
Qed.

Lemma queryActiveCrashes_ids (db : Store) :
  NoDup (ClearedIncident.ID <$> queryActiveCrashes db).
Proof.
  unfold queryActiveCrashes. rewrite <- list_fmap_compose.
  apply (sublist_NoDup _ ((map_to_list db).*1)); [apply NoDup_fst_map_to_list|].
  apply fmap_sublist, sublist_filter.
Qed.

Lemma scanRows_filter (e : Env) (rows : list ClearedIncident.t) :
  scanRows e rows
  = filter (fun r => scan_ok e (ClearedIncident.ID r) = true) rows.
Proof.
  induction rows as [|r rows IH]; [done|]. simpl. rewrite filter_cons, IH.
  destruct (scan_ok e (ClearedIncident.ID r)); case_decide; congruence.
Qed.

Lemma elem_of_crashesToClear (e : Env) (db : Store) (cur : IDSet)
    (c : ClearedIncident.t) :
  c ∈ crashesToClear e db cur
  <-> c ∈ queryActiveCrashes db
      /\ scan_ok e (ClearedIncident.ID c) = true
      /\ index cur (ClearedIncident.ID c) = false.
Proof.
  unfold crashesToClear. rewrite scanRows_filter, !list_elem_of_filter. tauto.
Qed.

Lemma crashesToClear_ids (e : Env) (db : Store) (cur : IDSet) :
  NoDup (ClearedIncident.ID <$> crashesToClear e db cur).
Proof.
  unfold crashesToClear. rewrite scanRows_filter.
  apply (sublist_NoDup _ (ClearedIncident.ID <$> queryActiveCrashes db));
    [apply queryActiveCrashes_ids|].
  apply fmap_sublist. etrans; apply sublist_filter.
Qed.

Lemma clearOldCrashes_ok (e : Env) (db : Store) (cur : IDSet) :
  query_ok e = true ->
  clearOldCrashes e db cur
  = (foldl (clearStore e) db (crashesToClear e db cur),
     QueryActive true :: concat (clearEvents e <$> crashesToClear e db cur),
     true).
Proof. intros Hq. unfold clearOldCrashes. by rewrite Hq, clearCrashes_eq. Qed.

(** C10.  In the clear pass, for a crash the pass has selected for
    clearing, the cleared notification is sent exactly when the UPDATE that
    marks the crash succeeds; when the UPDATE fails no cleared notification
    is sent for the identifier, the row is left as it was (still active), and
    the query of the next run selects it again. *)
Theorem cleared_notification_iff_update
    (e : Env) (db : Store) (currentCrashIDs : IDSet) (crash : ClearedIncident.t) :
  query_ok e = true ->
  crash ∈ crashesToClear e db currentCrashIDs ->
  let r := clearOldCrashes e db currentCrashIDs in
  (NotifyCleared crash ∈ r.1.2
   <-> exec_clear_ok e (ClearedIncident.ID crash) = true)
  /\ (exec_clear_ok e (ClearedIncident.ID crash) = false ->
      countEvents (isNotifyClearedFor (ClearedIncident.ID crash)) r.1.2 = 0%nat
      /\ MarkCleared (ClearedIncident.ID crash) false ∈ r.1.2
      /\ r.1.1 !! ClearedIncident.ID crash = db !! ClearedIncident.ID crash
      /\ (exists row, r.1.1 !! ClearedIncident.ID crash = Some row
                      /\ status row = active)
      /\ crash ∈ queryActiveCrashes r.1.1).
Proof.
  intros Hq Hin r. subst r. rewrite clearOldCrashes_ok by done. simpl.
  split.
  - rewrite elem_of_cons, elem_of_clear_events. split.
    + intros [H|[_ H]]; [discriminate | done].
    + intros H. right. by split.
  - intros Hfail.
    assert (Hrow : foldl (clearStore e) db (crashesToClear e db currentCrashIDs)
                     !! ClearedIncident.ID crash
                   = db !! ClearedIncident.ID crash)
      by by apply clear_failed_lookup.
    pose proof Hin as Hsel. apply elem_of_crashesToClear in Hsel as (Hsel & _ & _).
    pose proof Hsel as Hq'.
    apply elem_of_queryActiveCrashes in Hq' as (row & Hdb & Hact & Hproj).
    repeat split.
    + rewrite countEvents_cons, count_cleared_events, Hfail. done.
    + apply list_elem_of_further. by apply elem_of_clear_failed.
    + done.
    + exists row. split; [by rewrite Hrow|].
      unfold selectsActiveCrash in Hact. apply andb_true_iff in Hact as [Hst _].
      by destruct (status row).
    + apply elem_of_queryActiveCrashes. exists row. by rewrite Hrow.
Qed.

(** Crash 7 is stored as active, the feed is empty and the UPDATE fails. *)
Lemma cleared_notification_iff_update_witness :
  countEvents (isNotifyClearedFor 7)
    (clearOldCrashes (noClear []) (database world7) ∅).1.2 = 0%nat
  /\ (clearOldCrashes (noClear []) (database world7) ∅).1.1 !! 7
     = database world7 !! 7.
Proof.
  assert (Hin : projectRow (7, insertedRow (crash 7))
                ∈ crashesToClear (noClear []) (database world7) ∅)
    by (vm_compute; apply list_elem_of_here).
  destruct (cleared_notification_iff_update (noClear []) (database world7) ∅
              (projectRow (7, insertedRow (crash 7))) eq_refl Hin)
    as (_ & Hfail).
  destruct (Hfail eq_refl) as (Hcount & _ & Hrow & _).
  split; [exact Hcount | exact Hrow].
Defined.

(** ** Shape of a run *)

Lemma processCrashes_db_other (e : Env) (l : list Incident.t) (k : Z) :
  k ∉ Incident.ID <$> l ->
  forall n s, l_db (processCrashes e n l s) !! k = l_db s !! k.
Proof.
  induction l as [|c l IH]; intros Hk n s; simpl; [done|].
  rewrite fmap_cons, not_elem_of_cons in Hk. destruct Hk as [Hne Hk].
  rewrite IH, processCrash_eq by done. simpl. unfold upsertIncident.
  destruct (exec_upsert_ok e n); simpl; [by apply execUpsert_other | done].
Qed.

Lemma index_insert_true (m : IDSet) (k k' : Z) :
  index (<[k' := true]> m) k = true <-> k = k' \/ index m k = true.
Proof.
  unfold index. destruct (decide (k' = k)) as [->|Hne].
  - rewrite lookup_insert_eq. simpl. tauto.
  - rewrite lookup_insert_ne by done. split; [tauto | intros [->|H]; done].
Qed.

Lemma index_foldl_insert (l : list Incident.t) (k : Z) :
  forall m : IDSet,
    index (foldl (fun m crash => <[Incident.ID crash := true]> m) m l) k = true
    <-> index m k = true \/ k ∈ Incident.ID <$> l.
Proof.
  induction l as [|c l IH]; intros m; csimpl.
  - rewrite elem_of_nil. tauto.
  - rewrite IH, index_insert_true, elem_of_cons. tauto.
Qed.

Lemma index_currentCrashIDsOf (l : list Incident.t) (k : Z) :
  index (currentCrashIDsOf l) k = true <-> k ∈ Incident.ID <$> l.
Proof.
  unfold currentCrashIDsOf. rewrite index_foldl_insert.
  unfold index. rewrite lookup_empty. simpl. split; [intros [H|H]; done | auto].
Qed.

Lemma elem_of_vehicleCrashesOf (all : list Incident.t) (c : Incident.t) :
  c ∈ vehicleCrashesOf all
  <-> Incident.IncidentType c = VehicleCrash /\ c ∈ all.
Proof.
  unfold vehicleCrashesOf, isVehicleCrash.
  rewrite list_elem_of_filter, String.eqb_eq. tauto.
Qed.

Lemma loopEvents_are_loop_events (e : Env) (l : list Incident.t) :
  forall n sent, Forall isLoopEvent (concat (loopEvents e n l sent)).
Proof.
  induction l as [|c l IH]; intros n sent; simpl; [constructor|].
  constructor; [exact I|]. apply Forall_app. split; [|apply IH].
  destruct (notifies e n c sent); repeat constructor.
Qed.

Lemma elem_of_loopEvents_upsert (e : Env) (l : list Incident.t)
    (c : Incident.t) (ok : bool) :
  forall n sent, Upsert c ok ∈ concat (loopEvents e n l sent) -> c ∈ l.
Proof.
  induction l as [|c' l IH]; intros n sent; simpl.
  - intros H. by apply elem_of_nil in H.
  - rewrite elem_of_cons, elem_of_app, elem_of_cons.
    intros [H|[H|H]].
    + injection H as -> _. by left.
    + destruct (notifies e n c' sent).
      * apply list_elem_of_singleton in H. discriminate.
      * by apply elem_of_nil in H.
    + right. by eapply IH.
Qed.

Lemma elem_of_loopEvents_notify (e : Env) (l : list Incident.t)
    (c : Incident.t) (t : string) :
  forall n sent,
    NotifyNew c t ∈ concat (loopEvents e n l sent) ->
    c ∈ l /\ t = formattedTime e c.
Proof.
  induction l as [|c' l IH]; intros n sent; simpl.
  - intros H. by apply elem_of_nil in H.
  - rewrite elem_of_cons, elem_of_app, elem_of_cons.
    intros [H|[H|H]].
    + discriminate.
    + destruct (notifies e n c' sent).
      * apply list_elem_of_singleton in H. injection H as -> ->. by auto.
      * by apply elem_of_nil in H.
    + destruct (IH _ _ H). by auto.
Qed.

Lemma clearOldCrashes_are_clear_events (e : Env) (db : Store) (cur : IDSet) :
  Forall isClearEvent (clearOldCrashes e db cur).1.2.
Proof.
  unfold clearOldCrashes. destruct (query_ok e); simpl; [|by repeat constructor].
  rewrite clearCrashes_eq. simpl. constructor; [exact I|].
  induction (crashesToClear e db cur) as [|c l IH]; csimpl; [constructor|].
  apply Forall_app. split; [|exact IH]. unfold clearEvents.
  destruct (exec_clear_ok e (ClearedIncident.ID c)); repeat constructor.
Qed.

(** [reconcile] with its intermediate values named. *)
Lemma reconcile_eq (e : Env) (w : World) (sentIDs : IDSet)
    (all : list Incident.t) :
  let vehicleCrashes := vehicleCrashesOf all in
  let s := processCrashes e 0 vehicleCrashes (mkLoop (database w) sentIDs []) in
  let c := clearOldCrashes e (l_db s) (currentCrashIDsOf vehicleCrashes) in
  reconcile e w sentIDs all
  = mkResult 0
      (mkWorld c.1.1
         (saveSentIncidents (write_file_ok e) (ledger_file w) (l_sentIDs s)).1)
      (concat (loopEvents e 0 vehicleCrashes sentIDs) ++ c.1.2
       ++ [WriteLedger (json.MarshalIndent (l_sentIDs s)) (write_file_ok e)]).
Proof.
  intros vc s c. unfold reconcile. fold vc. fold s. fold c.
  destruct c as [[db2 tr2] okc]. unfold saveSentIncidents.
  subst s. rewrite processCrashes_trace. simpl.
  by destruct (write_file_ok e).
Qed.

Lemma main_completes (e : Env) (w : World) (sentIDs : IDSet)
    (all : list Incident.t) :
  completes e w sentIDs all -> main e w = reconcile e w sentIDs all.
Proof.
  intros (Hopen & Hping & Hload & Hfeed). unfold main.
  by rewrite Hopen, Hping, Hload, Hfeed.
Qed.

(** The events of the loop are found in the loop, those of the clear pass
    in the clear pass. *)
Lemma reconcile_loop_event (e : Env) (w : World) (sentIDs : IDSet)
    (all : list Incident.t) (ev : Event) :
  isLoopEvent ev ->
  ev ∈ trace (reconcile e w sentIDs all) ->
  ev ∈ concat (loopEvents e 0 (vehicleCrashesOf all) sentIDs).
Proof.
  intros Hev. rewrite reconcile_eq. simpl. rewrite !elem_of_app.
  intros [Hin|[Hin|Hin]]; [done| |].
  - pose proof (clearOldCrashes_are_clear_events e
      (l_db (processCrashes e 0 (vehicleCrashesOf all)
               (mkLoop (database w) sentIDs [])))
      (currentCrashIDsOf (vehicleCrashesOf all))) as Hall.
    rewrite Forall_forall in Hall. apply Hall in Hin. by destruct ev.
  - apply list_elem_of_singleton in Hin. by subst ev.
Qed.

Lemma reconcile_clear_event (e : Env) (w : World) (sentIDs : IDSet)
    (all : list Incident.t) (ev : Event) :
  isClearEvent ev ->
  ev ∈ trace (reconcile e w sentIDs all) ->
  ev ∈ (clearOldCrashes e
          (l_db (processCrashes e 0 (vehicleCrashesOf all)
                   (mkLoop (database w) sentIDs [])))
          (currentCrashIDsOf (vehicleCrashesOf all))).1.2.
Proof.
  intros Hev. rewrite reconcile_eq. simpl. rewrite !elem_of_app.
  intros [Hin|[Hin|Hin]]; [|done|].
  - pose proof (loopEvents_are_loop_events e (vehicleCrashesOf all) 0 sentIDs)
      as Hall.
    rewrite Forall_forall in Hall. apply Hall in Hin. by destruct ev.
  - apply list_elem_of_singleton in Hin. by subst ev.
Qed.

Lemma count_loop_events (p : Event -> bool) (tr : list Event) :
  Forall isLoopEvent tr ->
  (forall ev, isLoopEvent ev -> p ev = false) ->
  countEvents p tr = 0%nat.
Proof.
  intros Hall Hp. apply countEvents_none. intros ev Hin.
  rewrite Forall_forall in Hall. by apply Hp, Hall.
Qed.

(** C2 (as amended).  Clear pass: take a stored incident that is active,
    of category Vehicle Crash, and whose identifier is not in the
    identifier set of the filtered snapshot.  In a run in which the query of
    the active crashes, the scan of its row and its UPDATE succeed, the
    row ends cleared with the cleared time set to now and all other columns
    as they were, exactly one cleared notification is sent for the
    identifier, it carries the identifier, road, location and city of the
    row, and no upsert is issued for the identifier. *)
Theorem clear_pass_clears_absent_crash
    (e : Env) (w : World) (sentIDs : IDSet) (all : list Incident.t)
    (id : Z) (row : StoredIncident) :
  completes e w sentIDs all ->
  database w !! id = Some row ->
  status row = active ->
  incident_type row = VehicleCrash ->
  index (currentCrashIDsOf (vehicleCrashesOf all)) id = false ->
  query_ok e = true ->
  scan_ok e id = true ->
  exec_clear_ok e id = true ->
  let r := main e w in
  database (final r) !! id = Some (markCleared (now e) row)
  /\ status (markCleared (now e) row) = cleared
  /\ cleared_time (markCleared (now e) row) = Some (now e)
  /\ countEvents (isNotifyClearedFor id) (trace r) = 1%nat
  /\ NotifyCleared (ClearedIncident.mk id (road row) (location row) (city row))
       ∈ trace r
  /\ (forall c ok, Upsert c ok ∈ trace r -> Incident.ID c <> id).
Proof.
  intros Hc Hrow Hst Hty Hcur Hq Hscan Hclr r. subst r.
  rewrite (main_completes _ _ _ _ Hc), reconcile_eq. simpl.
  set (vc := vehicleCrashesOf all) in *.
  set (s := processCrashes e 0 vc (mkLoop (database w) sentIDs [])).
  set (cur := currentCrashIDsOf vc) in *.
  set (c := ClearedIncident.mk id (road row) (location row) (city row)).
  assert (Hout : id ∉ Incident.ID <$> vc).
  { intros Hin. apply index_currentCrashIDsOf in Hin. fold cur in Hin. congruence. }
  assert (Hdb1 : l_db s !! id = Some row).
  { subst s. by rewrite processCrashes_db_other. }
  assert (Hin : c ∈ crashesToClear e (l_db s) cur).
  { apply elem_of_crashesToClear. repeat split; try done.
    apply elem_of_queryActiveCrashes. exists row. repeat split; [done|].
    unfold selectsActiveCrash. rewrite Hst, Hty. by rewrite String.eqb_refl. }
  assert (Hids : id ∈ ClearedIncident.ID <$> crashesToClear e (l_db s) cur).
  { by apply (list_elem_of_fmap_2' _ _ c). }
  rewrite clearOldCrashes_ok by done. simpl. repeat split.
  - by rewrite clear_done_lookup, Hdb1.
  - rewrite countEvents_app, countEvents_cons, countEvents_app.
    rewrite count_cleared_events, Hclr.
    rewrite (count_same_id _ _ (crashesToClear_ids _ _ _) Hids).
    rewrite (count_loop_events _ _ (loopEvents_are_loop_events _ _ _ _));
      [done | by intros []].
  - apply elem_of_app. right. apply list_elem_of_further, elem_of_app. left.
    by apply elem_of_clear_events.
  - intros c' ok Hup Hid. apply Hout. rewrite <- Hid.
    apply list_elem_of_fmap_2.
    apply elem_of_app in Hup as [Hup|Hup];
      [by eapply elem_of_loopEvents_upsert|].
    exfalso. apply elem_of_cons in Hup as [Hup|Hup]; [discriminate|].
    apply elem_of_app in Hup as [Hup|Hup].
    + pose proof (clearOldCrashes_are_clear_events e (l_db s) cur) as Hall.
      rewrite clearOldCrashes_ok in Hall by done. simpl in Hall.
      apply Forall_cons in Hall as [_ Hall].
      rewrite Forall_forall in Hall. by apply Hall in Hup.
    + apply list_elem_of_singleton in Hup. discriminate.
Qed.

Lemma world7_completes (l : list Incident.t) :
  completes (calm l) world7 {[ 7 := true ]} l.
Proof. repeat split; vm_compute; reflexivity. Qed.

(** Crash 7 is stored as active and has left the feed. *)
Lemma clear_pass_clears_absent_crash_witness :
  database (final (main (calm []) world7)) !! 7
  = Some (markCleared 1000 (insertedRow (crash 7)))
  /\ countEvents (isNotifyClearedFor 7) (trace (main (calm []) world7)) = 1%nat.
Proof.
  assert (Hrow : database world7 !! 7 = Some (insertedRow (crash 7)))
    by (vm_compute; reflexivity).
  assert (Hcur : index (currentCrashIDsOf (vehicleCrashesOf [])) 7 = false)
    by (vm_compute; reflexivity).
  destruct (clear_pass_clears_absent_crash (calm []) world7 {[ 7 := true ]} []
              7 (insertedRow (crash 7)) (world7_completes [])
              Hrow eq_refl eq_refl Hcur eq_refl eq_refl eq_refl)
    as (Hdb & _ & _ & Hcount & _).
  split; [exact Hdb | exact Hcount].
Defined.

(** C2 (as stated) fails: crash 7 is stored as active with category
    Vehicle Crash and the feed is empty.  When the UPDATE of the clear pass
    fails, and likewise when its query fails or the scan of the row fails,
    the run completes, leaves the row active and sends no cleared
    notification. *)
Lemma clear_pass_counterexample :
  database world7 !! 7 = Some (insertedRow (crash 7))
  /\ status (insertedRow (crash 7)) = active
  /\ incident_type (insertedRow (crash 7)) = VehicleCrash
  /\ index (currentCrashIDsOf (vehicleCrashesOf [])) 7 = false
  /\ (exit_status (main (noClear []) world7) = 0
      /\ database (final (main (noClear []) world7)) !! 7
         = Some (insertedRow (crash 7))
      /\ countEvents (isNotifyClearedFor 7) (trace (main (noClear []) world7))
         = 0%nat)
  /\ (database (final (main (noQuery []) world7)) !! 7
      = Some (insertedRow (crash 7))
      /\ countEvents (isNotifyClearedFor 7) (trace (main (noQuery []) world7))
         = 0%nat)
  /\ (database (final (main (noScan []) world7)) !! 7
      = Some (insertedRow (crash 7))
      /\ countEvents (isNotifyClearedFor 7) (trace (main (noScan []) world7))
         = 0%nat).
Proof. repeat split; vm_compute; reflexivity. Qed.

Lemma main_trace_notify (e : Env) (w : World) (c : Incident.t) (t : string) :
  NotifyNew c t ∈ trace (main e w) -> t = formattedTime e c.
Proof.
  unfold main.
  destruct (db_open_ok e), (db_ping_ok e); simpl;
    try (intros H; by apply elem_of_nil in H).
  destruct (loadSentIncidents _ _) as [sentIDs|];
    [|intros H; by apply elem_of_nil in H].
  destruct (feed e) as [| | |all]; try (intros H; by apply elem_of_nil in H).
  intros Hin. apply reconcile_loop_event in Hin; [|exact I].
  by eapply elem_of_loopEvents_notify.
Qed.

(** C8.  Timestamp fallback: an iteration that reaches the notification (the
    identifier is unsent and the location loaded) sends it, records the
    identifier and goes on to the next record whether or not the start time
    parses; the time it carries is the parsed instant formatted in the
    loaded location when the start time parses, and the start time itself,
    verbatim, when it does not.  Every new-incident notification of a run
    carries its time that way. *)
Theorem timestamp_fallback (e : Env) :
  (forall (n : nat) (crash : Incident.t) (s : Loop),
      index (l_sentIDs s) (Incident.ID crash) = false ->
      load_location_ok e n = true ->
      let s' := processCrash e n crash s in
      (forall parsedTime,
          time_parse e (Incident.StartTime crash) = Some parsedTime ->
          l_trace s' = l_trace s ++ [Upsert crash (exec_upsert_ok e n);
                                     NotifyNew crash (format_eastern e parsedTime)])
      /\ (time_parse e (Incident.StartTime crash) = None ->
          l_trace s' = l_trace s ++ [Upsert crash (exec_upsert_ok e n);
                                     NotifyNew crash (Incident.StartTime crash)])
      /\ l_sentIDs s' = <[Incident.ID crash := true]> (l_sentIDs s)
      /\ (forall rest, processCrashes e n (crash :: rest) s
                       = processCrashes e (S n) rest s'))
  /\ (forall (w : World) (crash : Incident.t) (t : string),
        NotifyNew crash t ∈ trace (main e w) ->
        (forall parsedTime,
            time_parse e (Incident.StartTime crash) = Some parsedTime ->
            t = format_eastern e parsedTime)
        /\ (time_parse e (Incident.StartTime crash) = None ->
            t = Incident.StartTime crash)).
Proof.
  split.
  - intros n crash s Hidx Hloc s'.
    assert (Hs' : s' = mkLoop
                         (upsertIncident (exec_upsert_ok e n) (l_db s) crash).1
                         (<[Incident.ID crash := true]> (l_sentIDs s))
                         (l_trace s ++ [Upsert crash (exec_upsert_ok e n);
                                        NotifyNew crash (formattedTime e crash)])).
    { subst s'. rewrite processCrash_eq.
      unfold markSent, iterationEvents, notifies. by rewrite Hidx, Hloc. }
    repeat split.
    + intros t Ht. rewrite Hs'. simpl. unfold formattedTime. by rewrite Ht.
    + intros Ht. rewrite Hs'. simpl. unfold formattedTime. by rewrite Ht.
    + by rewrite Hs'.
  - intros w crash t Hin. apply main_trace_notify in Hin. subst t.
    unfold formattedTime. split.
    + intros parsedTime Ht. by rewrite Ht.
    + intros Ht. by rewrite Ht.
Qed.

(** A start time that does not parse is sent as it is. *)
Lemma timestamp_fallback_witness :
  l_trace (processCrash (calm [crash 1]) 0 (crash 1) (mkLoop ∅ ∅ []))
  = [Upsert (crash 1) true; NotifyNew (crash 1) "not a date"].
Proof.
  assert (Hidx : index (∅ : IDSet) 1 = false) by (vm_compute; reflexivity).
  destruct (timestamp_fallback (calm [crash 1])) as [Hiter _].
  destruct (Hiter 0%nat (crash 1) (mkLoop ∅ ∅ []) Hidx eq_refl) as (_ & Hraw & _).
  exact (Hraw eq_refl).
Defined.

(** ** Order of the passes *)

Lemma loopEvents_shape (e : Env) (l : list Incident.t) :
  forall n sent, Forall2 (iterationShape e) l (loopEvents e n l sent).
Proof.
  induction l as [|c l IH]; intros n sent; simpl; constructor; [|apply IH].
  exists (exec_upsert_ok e n). unfold iterationEvents.
  destruct (notifies e n c sent); auto.
Qed.

(** C4 (as amended).  Pass ordering: in a run that gets as far as the loop,
    the upserts and the new-incident notifications come from one loop over
    the filtered snapshot, in its order, each iteration issuing the upsert
    of its record and then, at most, the notification of that same record;
    all of these come before every event of the clear pass, and the write
    of the ledger is last. *)
Theorem passes_in_order (e : Env) (w : World) (sentIDs : IDSet)
    (all : list Incident.t) :
  completes e w sentIDs all ->
  exists (iterations : list (list Event)) (clearPass : list Event)
         (data : string) (ok : bool),
    trace (main e w) = concat iterations ++ clearPass ++ [WriteLedger data ok]
    /\ Forall2 (iterationShape e) (vehicleCrashesOf all) iterations
    /\ Forall isClearEvent clearPass.
Proof.
  intros Hc. rewrite (main_completes _ _ _ _ Hc), reconcile_eq. simpl.
  eexists _, _, _, _. split; [reflexivity|]. split.
  - apply loopEvents_shape.
  - apply clearOldCrashes_are_clear_events.
Qed.

Lemma emptyWorld_completes (l : list Incident.t) :
  completes (calm l) emptyWorld ∅ l.
Proof. repeat split. Qed.

Lemma passes_in_order_witness :
  exists (iterations : list (list Event)) (clearPass : list Event)
         (data : string) (ok : bool),
    trace (main (calm [crash 1; crash 3]) emptyWorld)
    = concat iterations ++ clearPass ++ [WriteLedger data ok]
    /\ Forall2 (iterationShape (calm [crash 1; crash 3]))
               (vehicleCrashesOf [crash 1; crash 3]) iterations
    /\ Forall isClearEvent clearPass.
Proof.
  exact (passes_in_order (calm [crash 1; crash 3]) emptyWorld ∅
           [crash 1; crash 3] (emptyWorld_completes _)).
Defined.

(** C4 (as stated) fails: with two new crashes in the feed, the
    notification of the first is sent before the upsert of the second is
    issued. *)
Lemma passes_in_order_counterexample :
  trace (main (calm [crash 1; crash 3]) emptyWorld) !! 1%nat
  = Some (NotifyNew (crash 1) "not a date")
  /\ trace (main (calm [crash 1; crash 3]) emptyWorld) !! 2%nat
     = Some (Upsert (crash 3) true).
Proof. split; vm_compute; reflexivity. Qed.

(** ** The category filter *)

Lemma processCrashes_withFeed (e : Env) (f : FeedResult) (l : list Incident.t) :
  forall n s, processCrashes (withFeed e f) n l s = processCrashes e n l s.
Proof.
  induction l as [|c l IH]; intros n s; simpl; [done|]. by rewrite IH.
Qed.

Lemma scanRows_withFeed (e : Env) (f : FeedResult) (rows : list ClearedIncident.t) :
  scanRows (withFeed e f) rows = scanRows e rows.
Proof. induction rows as [|r rows IH]; simpl; [done|]. by rewrite IH. Qed.

Lemma clearCrashes_withFeed (e : Env) (f : FeedResult) (l : list ClearedIncident.t) :
  forall s, clearCrashes (withFeed e f) l s = clearCrashes e l s.
Proof. induction l as [|c l IH]; intros s; simpl; [done|]. by rewrite IH. Qed.

Lemma reconcile_withFeed (e : Env) (f : FeedResult) (w : World)
    (sentIDs : IDSet) (all : list Incident.t) :
  reconcile (withFeed e f) w sentIDs all = reconcile e w sentIDs all.
Proof.
  unfold reconcile, clearOldCrashes, crashesToClear.
  by rewrite processCrashes_withFeed, scanRows_withFeed, clearCrashes_withFeed.
Qed.

Lemma vehicleCrashesOf_idemp (all : list Incident.t) :
  vehicleCrashesOf (vehicleCrashesOf all) = vehicleCrashesOf all.
Proof.
  unfold vehicleCrashesOf. rewrite list_filter_filter.
  apply list_filter_iff. tauto.
Qed.

Lemma reconcile_filtered (e : Env) (w : World) (sentIDs : IDSet)
    (all : list Incident.t) :
  reconcile e w sentIDs (vehicleCrashesOf all) = reconcile e w sentIDs all.
Proof. unfold reconcile. by rewrite vehicleCrashesOf_idemp. Qed.

Lemma elem_of_clear_events_mark (e : Env) (id : Z) (ok : bool)
    (l : list ClearedIncident.t) :
  MarkCleared id ok ∈ concat (clearEvents e <$> l) ->
  id ∈ ClearedIncident.ID <$> l.
Proof.
  induction l as [|c l IH]; csimpl; [intros H; by apply elem_of_nil in H|].
  rewrite elem_of_app, elem_of_cons. intros [H|H]; [left | right; by apply IH].
  unfold clearEvents in H. destruct (exec_clear_ok e (ClearedIncident.ID c)).
  - apply elem_of_cons in H as [H|H]; [by injection H|].
    apply list_elem_of_singleton in H. discriminate.
  - apply list_elem_of_singleton in H. by injection H.
Qed.

Lemma elem_of_clearOldCrashes_mark (e : Env) (db : Store) (cur : IDSet)
    (id : Z) (ok : bool) :
  MarkCleared id ok ∈ (clearOldCrashes e db cur).1.2 ->
  exists c, c ∈ crashesToClear e db cur /\ ClearedIncident.ID c = id.
Proof.
  unfold clearOldCrashes. destruct (query_ok e); simpl.
  - rewrite clearCrashes_eq. simpl. rewrite elem_of_cons.
    intros [H|H]; [discriminate|].
    apply elem_of_clear_events_mark, list_elem_of_fmap in H as (c & -> & Hc).
    by exists c.
  - intros H. apply list_elem_of_singleton in H. discriminate.
Qed.

(** C5 (as amended).  Category filter: in a run that gets as far as the
    loop, every upsert and every new-incident notification is for a feed
    record of category Vehicle Crash, and the run is the one the feed with
    the other records removed would give: a record of another category
    causes no upsert, no notification and no clearance, and prevents none.
    An identifier is sent to be marked cleared only when the store held an
    active Vehicle Crash row under it before the run and no Vehicle Crash
    record of the snapshot carries it; a record of another category with
    that identifier does not stand in the way. *)
Theorem category_filter (e : Env) (w : World) (sentIDs : IDSet)
    (all : list Incident.t) :
  completes e w sentIDs all ->
  (forall c ok, Upsert c ok ∈ trace (main e w) ->
                Incident.IncidentType c = VehicleCrash /\ c ∈ all)
  /\ (forall c t, NotifyNew c t ∈ trace (main e w) ->
                  Incident.IncidentType c = VehicleCrash /\ c ∈ all)
  /\ main e w = main (withFeed e (Decoded (vehicleCrashesOf all))) w
  /\ (forall id ok, MarkCleared id ok ∈ trace (main e w) ->
        (exists row, database w !! id = Some row
                     /\ status row = active
                     /\ incident_type row = VehicleCrash)
        /\ (forall c, c ∈ all -> Incident.ID c = id ->
                      Incident.IncidentType c <> VehicleCrash)).
Proof.
  intros Hc. pose proof Hc as (Hopen & Hping & Hload & Hfeed).
  split; [|split; [|split]].
  - rewrite (main_completes _ _ _ _ Hc).
    intros c ok Hin. apply elem_of_vehicleCrashesOf.
    apply reconcile_loop_event in Hin; [|exact I].
    by eapply elem_of_loopEvents_upsert.
  - rewrite (main_completes _ _ _ _ Hc).
    intros c t Hin. apply elem_of_vehicleCrashesOf.
    apply reconcile_loop_event in Hin; [|exact I].
    by eapply elem_of_loopEvents_notify.
  - unfold main. simpl. rewrite Hopen, Hping, Hload, Hfeed. simpl.
    by rewrite reconcile_withFeed, reconcile_filtered.
  - rewrite (main_completes _ _ _ _ Hc).
    intros id ok Hin. apply reconcile_clear_event in Hin; [|exact I].
    apply elem_of_clearOldCrashes_mark in Hin as (c & Hc' & <-).
    apply elem_of_crashesToClear in Hc' as (Hq & _ & Hcur).
    apply elem_of_queryActiveCrashes in Hq as (row & Hrow & Hsel & _).
    assert (Hout : ClearedIncident.ID c ∉ Incident.ID <$> vehicleCrashesOf all).
    { intros Hin. apply index_currentCrashIDsOf in Hin. congruence. }
    split.
    + exists row. rewrite processCrashes_db_other in Hrow by done.
      unfold selectsActiveCrash in Hsel.
      apply andb_true_iff in Hsel as [Hst Hty]. apply String.eqb_eq in Hty.
      repeat split; [done | by destruct (status row) | done].
    + intros c' Hall Hid Hty. apply Hout. rewrite <- Hid.
      apply list_elem_of_fmap_2. by apply elem_of_vehicleCrashesOf.
Qed.

(** The end-to-end scenario of the specification, with identifier 7 for the
    known crash: the road closure leaves no event. *)
Lemma category_filter_witness :
  main (calm [crash 7; closure 2]) world7 = main (calm [crash 7]) world7.
Proof.
  destruct (category_filter (calm [crash 7; closure 2]) world7 {[ 7 := true ]}
              [crash 7; closure 2] (world7_completes _))
    as (_ & _ & Hsame & _).
  exact Hsame.
Defined.

(** C5 (as stated) fails: the store holds crash 7 as active, and the feed
    now reports identifier 7 under another category.  The run marks 7
    cleared and sends its cleared notification. *)
Lemma category_filter_counterexample :
  isVehicleCrash (Incident.IncidentType (closure 7)) = false
  /\ Incident.ID (closure 7) = 7
  /\ feed (calm [closure 7]) = Decoded [closure 7]
  /\ trace (main (calm [closure 7]) world7) !! 1%nat = Some (MarkCleared 7 true)
  /\ trace (main (calm [closure 7]) world7) !! 2%nat
     = Some (NotifyCleared (ClearedIncident.mk 7 "I-40" "Exit 280" "Raleigh"))
  /\ database (final (main (calm [closure 7]) world7)) !! 7
     = Some (markCleared 1000 (insertedRow (crash 7))).
Proof. repeat split; vm_compute; reflexivity. Qed.

(** ** The ledger round trip *)

Lemma string_app_nil_r (s : string) : (s ++ "")%string = s.
Proof.
  induction s as [|c s IH]; [done|].
  change (String c (s ++ "") = String c s)%string. by rewrite IH.
Qed.

Lemma string_app_assoc (a b c : string) :
  ((a ++ b) ++ c)%string = (a ++ (b ++ c))%string.
Proof.
  induction a as [|x a IH]; [done|].
  change (String x ((a ++ b) ++ c) = String x (a ++ (b ++ c)))%string.
  by rewrite IH.
Qed.

Lemma allKeyChars_string_of_uint (d : Decimal.uint) :
  allKeyChars (NilEmpty.string_of_uint d) = true.
Proof. induction d; simpl; auto. Qed.

Lemma allKeyChars_FormatInt (z : Z) : allKeyChars (strconv.FormatInt z) = true.
Proof.
  unfold strconv.FormatInt.
  assert (H : forall d, allKeyChars (NilZero.string_of_uint d) = true).
  { intros d. destruct d; try reflexivity;
      apply (allKeyChars_string_of_uint (_ d)). }
  destruct (Z.to_int z); simpl; [apply H|].
  apply (H d).
Qed.

Lemma digits_string_of_uint (d : Decimal.uint) :
  strconv.digits (NilZero.string_of_uint d) = Some (Z.of_uint d).
Proof.
  unfold strconv.digits.
  destruct d; try reflexivity; by rewrite NilZero.usu.
Qed.

Lemma ParseInt_unsigned (d : Decimal.uint) :
  strconv.ParseInt (NilZero.string_of_uint d)
  = if is_intb (Z.of_uint d) then Some (Z.of_uint d) else None.
Proof.
  unfold strconv.ParseInt.
  assert (H : match NilZero.string_of_uint d with
              | String "+"%char r => strconv.digits r
              | String "-"%char r => Z.opp <$> strconv.digits r
              | _ => strconv.digits (NilZero.string_of_uint d)
              end = strconv.digits (NilZero.string_of_uint d))
    by (destruct d; reflexivity).
  rewrite H, digits_string_of_uint. reflexivity.
Qed.

Lemma is_intb_true (z : Z) : is_int z -> is_intb z = true.
Proof.
  unfold is_int, is_intb. intros [H1 H2].
  apply andb_true_iff. split; by apply Z.leb_le.
Qed.

Lemma is_intb_is_int (z : Z) : is_intb z = true -> is_int z.
Proof.
  unfold is_int, is_intb. intros H. apply andb_true_iff in H as [H1 H2].
  split; by apply Z.leb_le.
Qed.

(** Printing an [int] and parsing it back. *)
Lemma ParseInt_FormatInt (z : Z) :
  is_int z -> strconv.ParseInt (strconv.FormatInt z) = Some z.
Proof.
  intros Hz. pose proof (DecimalZ.of_to z) as Hof.
  unfold strconv.FormatInt. destruct (Z.to_int z) as [d|d]; simpl in *.
  - rewrite ParseInt_unsigned, Hof. by rewrite is_intb_true.
  - unfold strconv.ParseInt. rewrite digits_string_of_uint. simpl.
    rewrite Hof. by rewrite is_intb_true.
Qed.

Lemma scanAll_app (a b : string) :
  forall s m,
    json.scanAll s m (a ++ b)
    = match json.scanAll s m a with
      | Some (s', m') => json.scanAll s' m' b
      | None => None
      end.
Proof.
  induction a as [|c a IH]; intros s m; simpl; [done|].
  destruct (json.step s m c) as [[s' m']|]; [apply IH | done].
Qed.

Lemma scanAll_key (m : IDSet) (ds : string) :
  allKeyChars ds = true ->
  forall key, json.scanAll (json.InKey key) m ds
              = Some (json.InKey (key ++ ds), m).
Proof.
  induction ds as [|c ds IH]; intros Hds key; simpl.
  - by rewrite string_app_nil_r.
  - simpl in Hds. apply andb_true_iff in Hds as [Hc Hds].
    unfold keyChar in Hc. apply andb_true_iff in Hc as [Hq Hb].
    apply negb_true_iff in Hq, Hb. rewrite Hq, Hb.
    rewrite IH by done. by rewrite string_app_assoc.
Qed.

(** One member, as the encoder prints it, read by the scanner. *)
Lemma scanAll_member (s : json.scan) (m : IDSet) (k : Z) (v : bool) :
  beginsKey s -> is_int k ->
  json.scanAll s m (json.member (k, v))
  = Some (json.AfterMember, <[k := v]> m).
Proof.
  intros Hs Hk. unfold json.member. simpl fst. simpl snd.
  change ("  " ++ String json.quote (strconv.FormatInt k)
            ++ String json.quote (": " ++ json.literal v))%string
    with (String " " (String " " (String json.quote
            (strconv.FormatInt k ++ String json.quote (": " ++ json.literal v)))))%string.
  assert (Hpre : json.scanAll s m
            (String " " (String " " (String json.quote
               (strconv.FormatInt k ++ String json.quote (": " ++ json.literal v)))))
          = json.scanAll (json.InKey "") m
              (strconv.FormatInt k ++ String json.quote (": " ++ json.literal v)))
    by (destruct Hs as [-> | ->]; reflexivity).
  rewrite Hpre, scanAll_app, scanAll_key by apply allKeyChars_FormatInt.
  simpl. change ("" ++ strconv.FormatInt k)%string with (strconv.FormatInt k).
  rewrite ParseInt_FormatInt by done.
  destruct v; reflexivity.
Qed.

Lemma scanAll_members (l : list (Z * bool)) :
  l <> [] ->
  Forall (fun kv => is_int kv.1) l ->
  forall s m, beginsKey s ->
    json.scanAll s m (json.members l)
    = Some (json.AfterMember, foldl putMember m l).
Proof.
  induction l as [|[k v] l IH]; intros Hne Hall s m Hs; [done|].
  apply Forall_cons in Hall as [Hk Hall]. simpl in Hk.
  destruct l as [|kv' l'].
  - change (json.members [(k, v)]) with (json.member (k, v) ++ json.NL)%string.
    rewrite scanAll_app, scanAll_member by done. reflexivity.
  - change (json.members ((k, v) :: kv' :: l'))
      with (json.member (k, v) ++ "," ++ json.NL ++ json.members (kv' :: l'))%string.
    rewrite scanAll_app, scanAll_member by done.
    change (json.scanAll json.AfterMember (<[k:=v]> m)
              ("," ++ json.NL ++ json.members (kv' :: l')))
      with (json.scanAll json.BeginKey (<[k:=v]> m) (json.members (kv' :: l'))).
    rewrite IH; [reflexivity | done | done | by left].
Qed.

Lemma foldl_putMember (l : list (Z * bool)) :
  NoDup l.*1 ->
  forall m : IDSet, foldl putMember m l = list_to_map l ∪ m.
Proof.
  induction l as [|[k v] l IH]; intros Hnd m; simpl.
  - by rewrite (left_id_L ∅ (∪)).
  - rewrite fmap_cons in Hnd. apply NoDup_cons in Hnd as [Hk Hnd].
    rewrite IH by done. unfold putMember. simpl.
    rewrite <- insert_union_l, <- insert_union_r; [done|].
    by apply not_elem_of_list_to_map_1.
Qed.

(** What the encoder prints, the decoder reads back. *)
Lemma Unmarshal_MarshalIndent (m : IDSet) :
  map_Forall (fun k _ => is_int k) m ->
  json.Unmarshal (json.MarshalIndent m) = Some m.
Proof.
  intros Hm. unfold json.MarshalIndent.
  pose proof (merge_sort_Permutation json.keyOrder (map_to_list m)) as Hperm.
  assert (Hmap : list_to_map (merge_sort json.keyOrder (map_to_list m)) = m).
  { rewrite <- (list_to_map_to_list m) at 2.
    apply list_to_map_proper; [|done].
    rewrite Hperm. apply NoDup_fst_map_to_list. }
  assert (Hall : Forall (fun kv => is_int kv.1)
                        (merge_sort json.keyOrder (map_to_list m))).
  { rewrite Hperm. apply Forall_forall. intros [k v] Hin.
    apply elem_of_map_to_list in Hin. by apply (Hm k v). }
  assert (Hnd : NoDup (merge_sort json.keyOrder (map_to_list m)).*1).
  { rewrite Hperm. apply NoDup_fst_map_to_list. }
  destruct (merge_sort json.keyOrder (map_to_list m)) as [|kv l] eqn:Hl.
  - simpl in Hmap. by subst m.
  - unfold json.Unmarshal.
    change (json.scanAll json.BeginValue ∅ ("{" ++ json.NL ++ json.members (kv :: l) ++ "}"))
      with (json.scanAll json.BeginKeyOrEnd ∅ (json.members (kv :: l) ++ "}")).
    rewrite scanAll_app, scanAll_members; [|done|done|by right].
    change (json.scanAll json.AfterMember (foldl putMember ∅ (kv :: l)) "}")
      with (Some (json.EndTop, foldl putMember ∅ (kv :: l))).
    cbv iota beta. rewrite foldl_putMember by done.
    rewrite (right_id_L ∅ (∪)). by rewrite Hmap.
Qed.

Lemma MarshalIndent_nonempty (m : IDSet) :
  (String.length (json.MarshalIndent m) =? 0)%nat = false.
Proof.
  unfold json.MarshalIndent.
  by destruct (merge_sort json.keyOrder (map_to_list m)).
Qed.

(** Loading what was saved. *)
Lemma load_saved (m : IDSet) :
  map_Forall (fun k _ => is_int k) m ->
  loadSentIncidents true (Some (json.MarshalIndent m)) = inl m.
Proof.
  intros Hm. unfold loadSentIncidents. simpl.
  by rewrite MarshalIndent_nonempty, Unmarshal_MarshalIndent.
Qed.

(** C7.  Ledger round trip: when [saveSentIncidents] returns no error, a
    [loadSentIncidents] that can read the file returns the mapping that was
    saved, for every mapping over Go's [int]; loading from a missing file,
    and from an empty one, returns the empty mapping and no error. *)
Theorem ledger_round_trip :
  (forall (m : IDSet) (write_ok : bool) (file file' : option string),
      map_Forall (fun k _ => is_int k) m ->
      saveSentIncidents write_ok file m = (file', true) ->
      loadSentIncidents true file' = inl m)
  /\ (forall read_ok, loadSentIncidents read_ok None = inl ∅)
  /\ (forall read_ok, read_ok = true ->
                      loadSentIncidents read_ok (Some EmptyString) = inl ∅).
Proof.
  split; [|split].
  - intros m write_ok file file' Hm. unfold saveSentIncidents.
    destruct write_ok; intros [= <-]. by apply load_saved.
  - reflexivity.
  - by intros ? ->.
Qed.

Lemma sample_ledger_int :
  map_Forall (fun k (_ : bool) => is_int k) ({[ 3 := true; 9 := true ]} : IDSet).
Proof.
  intros k v Hk. apply lookup_insert_Some in Hk as [[<- _]|[_ Hk]].
  - unfold is_int, int_min, int_max. lia.
  - apply lookup_singleton_Some in Hk as [<- _].
    unfold is_int, int_min, int_max. lia.
Qed.

(** The example of the specification. *)
Lemma ledger_round_trip_witness :
  loadSentIncidents true
    (saveSentIncidents true None {[ 3 := true; 9 := true ]}).1
  = inl {[ 3 := true; 9 := true ]}.
Proof.
  destruct ledger_round_trip as (Hround & _ & _).
  exact (Hround {[ 3 := true; 9 := true ]} true None _ sample_ledger_int eq_refl).
Defined.

(** ** Keys of a loaded ledger *)

Lemma ParseInt_is_int (s : string) (k : Z) :
  strconv.ParseInt s = Some k -> is_int k.
Proof.
  unfold strconv.ParseInt.
  destruct (match s with
            | String "+"%char r => strconv.digits r
            | String "-"%char r => Z.opp <$> strconv.digits r
            | _ => strconv.digits s
            end) as [v|]; [|done].
  destruct (is_intb v) eqn:Hv; [|done]. intros [= <-]. by apply is_intb_is_int.
Qed.

Lemma intKeys_insert (m : IDSet) (k : Z) (v : bool) :
  is_int k -> intKeys m -> intKeys (<[k := v]> m).
Proof. intros Hk Hm. by apply map_Forall_insert_2. Qed.

Lemma step_int (s s' : json.scan) (m m' : IDSet) (c : ascii) :
  scanInt s -> intKeys m -> json.step s m c = Some (s', m') ->
  scanInt s' /\ intKeys m'.
Proof.
  intros Hs Hm. destruct s; simpl in *;
    repeat match goal with
      | |- context [if ?b then _ else _] => destruct b
      | |- context [match strconv.ParseInt ?k with _ => _ end] =>
          destruct (strconv.ParseInt k) eqn:?
      | |- context [match ?r with EmptyString => _ | String _ _ => _ end] =>
          destruct r
      end;
    intros [= <- <-]; simpl; eauto using ParseInt_is_int, intKeys_insert.
Qed.

Lemma scanAll_int (data : string) :
  forall s m s' m',
    scanInt s -> intKeys m -> json.scanAll s m data = Some (s', m') ->
    intKeys m'.
Proof.
  induction data as [|c data IH]; intros s m s' m' Hs Hm; simpl.
  - by intros [= _ <-].
  - destruct (json.step s m c) as [[s1 m1]|] eqn:Hstep; [|done].
    destruct (step_int _ _ _ _ _ Hs Hm Hstep). by eapply IH.
Qed.

Lemma loadSentIncidents_int (read_ok : bool) (file : option string) (m : IDSet) :
  loadSentIncidents read_ok file = inl m -> intKeys m.
Proof.
  unfold loadSentIncidents. destruct file as [data|];
    [|intros [= <-]; apply map_Forall_empty].
  destruct (negb read_ok); [done|].
  destruct (String.length data =? 0)%nat;
    [intros [= <-]; apply map_Forall_empty|].
  unfold json.Unmarshal.
  destruct (json.scanAll json.BeginValue ∅ data) as [[s' m']|] eqn:Hscan; [|done].
  destruct s'; try done. intros [= <-].
  eapply scanAll_int; [| |exact Hscan]; [exact I | apply map_Forall_empty].
Qed.

(** ** Notifying once *)

Lemma index_markSent (e : Env) (n : nat) (c : Incident.t) (sent : IDSet) (id : Z) :
  index (markSent e n c sent) id
  = index sent id || (notifies e n c sent && (Incident.ID c =? id)).
Proof.
  unfold markSent. destruct (notifies e n c sent); simpl; [|by rewrite orb_false_r].
  unfold index. destruct (Z.eqb_spec (Incident.ID c) id) as [->|Hne].
  - rewrite lookup_insert_eq. simpl. by rewrite orb_true_r.
  - rewrite lookup_insert_ne by done. by rewrite orb_false_r.
Qed.

Lemma count_iteration (e : Env) (n : nat) (c : Incident.t) (sent : IDSet) (id : Z) :
  countEvents (isNotifyNewFor id) (iterationEvents e n c sent)
  = if notifies e n c sent && (Incident.ID c =? id) then 1%nat else 0%nat.
Proof.
  unfold iterationEvents. rewrite countEvents_cons. simpl.
  destruct (notifies e n c sent); simpl; [|done].
  rewrite countEvents_cons, countEvents_nil. simpl.
  by destruct (Incident.ID c =? id).
Qed.

Lemma loopEvents_cons (e : Env) (n : nat) (c : Incident.t)
    (l : list Incident.t) (sent : IDSet) :
  concat (loopEvents e n (c :: l) sent)
  = iterationEvents e n c sent
    ++ concat (loopEvents e (S n) l (markSent e n c sent)).
Proof. reflexivity. Qed.

Lemma loopSent_cons (e : Env) (n : nat) (c : Incident.t)
    (l : list Incident.t) (sent : IDSet) :
  loopSent e n (c :: l) sent = loopSent e (S n) l (markSent e n c sent).
Proof. reflexivity. Qed.

(** An identifier that is in the set is not notified, and stays in it. *)
Lemma loop_marked (e : Env) (id : Z) (l : list Incident.t) :
  forall n sent,
    index sent id = true ->
    countEvents (isNotifyNewFor id) (concat (loopEvents e n l sent)) = 0%nat
    /\ index (loopSent e n l sent) id = true.
Proof.
  induction l as [|c l IH]; intros n sent Hid; [done|].
  rewrite loopEvents_cons, loopSent_cons, countEvents_app, count_iteration.
  assert (Hnot : notifies e n c sent && (Incident.ID c =? id) = false).
  { unfold notifies. destruct (Z.eqb_spec (Incident.ID c) id) as [->|];
      [by rewrite Hid | by rewrite andb_false_r]. }
  rewrite Hnot. apply IH. by rewrite index_markSent, Hid.
Qed.

(** An identifier that is not in the set is notified at most once. *)
Lemma loop_at_most_once (e : Env) (id : Z) (l : list Incident.t) :
  forall n sent,
    (countEvents (isNotifyNewFor id) (concat (loopEvents e n l sent)) <= 1)%nat.
Proof.
  induction l as [|c l IH]; intros n sent; [simpl; rewrite countEvents_nil; lia|].
  rewrite loopEvents_cons, countEvents_app, count_iteration.
  destruct (notifies e n c sent && (Incident.ID c =? id)) eqn:Hnot.
  - destruct (loop_marked e id l (S n) (markSent e n c sent)) as [-> _]; [|lia].
    by rewrite index_markSent, Hnot, orb_true_r.
  - specialize (IH (S n) (markSent e n c sent)). lia.
Qed.

(** With the location loading, an identifier of the feed that is not in
    the set is notified once, and is in the set afterwards. *)
Lemma loop_unmarked (e : Env) (id : Z) (l : list Incident.t) :
  (forall n, load_location_ok e n = true) ->
  forall n sent,
    index sent id = false ->
    id ∈ Incident.ID <$> l ->
    countEvents (isNotifyNewFor id) (concat (loopEvents e n l sent)) = 1%nat
    /\ index (loopSent e n l sent) id = true.
Proof.
  intros Hloc. induction l as [|c l IH]; intros n sent Hid Hin.
  - by apply elem_of_nil in Hin.
  - rewrite loopEvents_cons, loopSent_cons, countEvents_app, count_iteration.
    destruct (Z.eqb_spec (Incident.ID c) id) as [Heq|Hne].
    + assert (Hnot : notifies e n c sent = true).
      { unfold notifies. by rewrite Heq, Hid, Hloc. }
      rewrite Hnot. simpl.
      destruct (loop_marked e id l (S n) (markSent e n c sent)) as [-> Hafter];
        [|done].
      by rewrite index_markSent, Hnot, Hid, Heq, Z.eqb_refl.
    + rewrite andb_false_r. simpl. apply IH.
      * apply Z.eqb_neq in Hne. by rewrite index_markSent, Hid, Hne, andb_false_r.
      * rewrite fmap_cons in Hin. apply elem_of_cons in Hin as [Hin|Hin]; [|done].
        congruence.
Qed.

Lemma loopSent_int (e : Env) (l : list Incident.t) :
  Forall (fun c => is_int (Incident.ID c)) l ->
  forall n sent, intKeys sent -> intKeys (loopSent e n l sent).
Proof.
  induction l as [|c l IH]; intros Hall n sent Hsent; simpl; [done|].
  apply Forall_cons in Hall as [Hc Hall]. apply IH; [done|].
  unfold markSent. destruct (notifies e n c sent); [|done].
  by apply intKeys_insert.
Qed.

Lemma count_clear_events (p : Event -> bool) (tr : list Event) :
  Forall isClearEvent tr ->
  (forall ev, isClearEvent ev -> p ev = false) ->
  countEvents p tr = 0%nat.
Proof.
  intros Hall Hp. apply countEvents_none. intros ev Hin.
  rewrite Forall_forall in Hall. by apply Hp, Hall.
Qed.

(** The new-incident notifications of a run for [id] are those of its loop. *)
Lemma count_new_reconcile (e : Env) (w : World) (sentIDs : IDSet)
    (all : list Incident.t) (id : Z) :
  countEvents (isNotifyNewFor id) (trace (reconcile e w sentIDs all))
  = countEvents (isNotifyNewFor id)
      (concat (loopEvents e 0 (vehicleCrashesOf all) sentIDs)).
Proof.
  rewrite reconcile_eq. simpl. rewrite !countEvents_app.
  rewrite (count_clear_events _ _ (clearOldCrashes_are_clear_events _ _ _));
    [|by intros []].
  rewrite countEvents_cons, countEvents_nil. simpl. lia.
Qed.

Lemma loopEvents_upserts (e : Env) (l : list Incident.t) (c : Incident.t) :
  c ∈ l ->
  forall n sent, exists ok, Upsert c ok ∈ concat (loopEvents e n l sent).
Proof.
  induction l as [|c' l IH]; intros Hin n sent; [by apply elem_of_nil in Hin|].
  rewrite loopEvents_cons. apply elem_of_cons in Hin as [->|Hin].
  - exists (exec_upsert_ok e n). apply elem_of_app. left. apply list_elem_of_here.
  - destruct (IH Hin (S n) (markSent e n c' sent)) as (ok & Hok).
    exists ok. apply elem_of_app. by right.
Qed.

(** Without the location no identifier enters the set. *)
Lemma loop_no_location (e : Env) (l : list Incident.t) :
  (forall n, load_location_ok e n = false) ->
  forall n sent id,
    loopSent e n l sent = sent
    /\ countEvents (isNotifyNewFor id) (concat (loopEvents e n l sent)) = 0%nat.
Proof.
  intros Hloc. induction l as [|c l IH]; intros n sent id; [done|].
  rewrite loopEvents_cons, loopSent_cons, countEvents_app, count_iteration.
  assert (Hnot : notifies e n c sent = false)
    by (unfold notifies; by rewrite Hloc, andb_false_r).
  unfold markSent. rewrite Hnot. simpl. apply IH.
Qed.

(** C9.  When [time.LoadLocation] fails in the iteration of a crash that is
    not in the set of sent identifiers, the iteration sends no new-incident
    notification and leaves the set as it was, so the identifier is still
    unsent; its only event is the upsert, issued before.  When the location
    fails to load throughout a run, the run sends no new-incident
    notification and writes back the set it loaded, so every such crash is
    still unsent for the next run. *)
Theorem location_failure_skips_notification (e : Env) :
  (forall (n : nat) (crash : Incident.t) (s : Loop),
      index (l_sentIDs s) (Incident.ID crash) = false ->
      load_location_ok e n = false ->
      let s' := processCrash e n crash s in
      l_trace s' = l_trace s ++ [Upsert crash (exec_upsert_ok e n)]
      /\ l_sentIDs s' = l_sentIDs s
      /\ index (l_sentIDs s') (Incident.ID crash) = false
      /\ l_db s' = (upsertIncident (exec_upsert_ok e n) (l_db s) crash).1)
  /\ (forall (w : World) (sentIDs : IDSet) (all : list Incident.t),
        completes e w sentIDs all ->
        (forall n, load_location_ok e n = false) ->
        (forall id, countEvents (isNotifyNewFor id) (trace (main e w)) = 0%nat)
        /\ (forall c, c ∈ vehicleCrashesOf all ->
                      exists ok, Upsert c ok ∈ trace (main e w))
        /\ (write_file_ok e = true ->
            ledger_file (final (main e w)) = Some (json.MarshalIndent sentIDs))).
Proof.
  split.
  - intros n crash s Hidx Hloc s'. subst s'. rewrite processCrash_eq. simpl.
    unfold markSent, iterationEvents, notifies. rewrite Hidx, Hloc. simpl.
    by repeat split.
  - intros w sentIDs all Hc Hloc. rewrite (main_completes _ _ _ _ Hc).
    split; [|split].
    + intros id. rewrite count_new_reconcile.
      by destruct (loop_no_location e (vehicleCrashesOf all) Hloc 0 sentIDs id).
    + intros c Hin. rewrite reconcile_eq. simpl.
      destruct (loopEvents_upserts e (vehicleCrashesOf all) c Hin 0 sentIDs)
        as (ok & Hok).
      exists ok. apply elem_of_app. by left.
    + intros Hwrite. rewrite reconcile_eq. simpl.
      unfold saveSentIncidents. rewrite Hwrite, processCrashes_sent. simpl.
      by destruct (loop_no_location e (vehicleCrashesOf all) Hloc 0 sentIDs 0) as [-> _].
Qed.

Lemma location_failure_skips_notification_witness :
  l_trace (processCrash (noZone [crash 1]) 0 (crash 1) (mkLoop ∅ ∅ []))
  = [Upsert (crash 1) true]
  /\ l_sentIDs (processCrash (noZone [crash 1]) 0 (crash 1) (mkLoop ∅ ∅ [])) = ∅.
Proof.
  assert (Hidx : index (∅ : IDSet) 1 = false) by (vm_compute; reflexivity).
  destruct (location_failure_skips_notification (noZone [crash 1])) as [Hiter _].
  destruct (Hiter 0%nat (crash 1) (mkLoop ∅ ∅ []) Hidx eq_refl)
    as (Htr & Hsent & _).
  split; [exact Htr | exact Hsent].
Defined.

Lemma vehicleCrashesOf_int (all : list Incident.t) :
  Forall (fun c => is_int (Incident.ID c)) all ->
  Forall (fun c => is_int (Incident.ID c)) (vehicleCrashesOf all).
Proof.
  rewrite !Forall_forall. intros H c Hc.
  apply elem_of_vehicleCrashesOf in Hc as [_ Hc]. by apply H.
Qed.

Lemma steady_run_step (id : Z) (e : Env) (w : World) (sent : IDSet) :
  steadyRun id e ->
  loadSentIncidents true (ledger_file w) = inl sent ->
  exists sent',
    loadSentIncidents true (ledger_file (final (main e w))) = inl sent'
    /\ index sent' id = true
    /\ countEvents (isNotifyNewFor id) (trace (main e w))
       = if index sent id then 0%nat else 1%nat.
Proof.
  intros (Hopen & Hping & Hread & Hwrite & Hloc & all & Hfeed & Hin & Hint) Hload.
  assert (Hc : completes e w sent all) by (by rewrite <- Hread in Hload).
  rewrite (main_completes _ _ _ _ Hc), count_new_reconcile.
  rewrite reconcile_eq. simpl. rewrite processCrashes_sent. simpl.
  unfold saveSentIncidents. rewrite Hwrite. simpl.
  exists (loopSent e 0 (vehicleCrashesOf all) sent).
  split; [|destruct (index sent id) eqn:Hid].
  - apply load_saved, loopSent_int;
      [by apply vehicleCrashesOf_int | by eapply loadSentIncidents_int].
  - destruct (loop_marked e id (vehicleCrashesOf all) 0 sent Hid). by split.
  - destruct (loop_unmarked e id (vehicleCrashesOf all) Hloc 0 sent Hid Hin).
    by split.
Qed.

Lemma steady_runs_marked (id : Z) (es : list Env) :
  Forall (steadyRun id) es ->
  forall w sent,
    loadSentIncidents true (ledger_file w) = inl sent ->
    index sent id = true ->
    totalNew id (runs es w) = 0%nat.
Proof.
  induction es as [|e es IH]; intros Hall w sent Hload Hid; [done|].
  apply Forall_cons in Hall as [He Hall]. simpl.
  destruct (steady_run_step id e w sent He Hload) as (sent' & Hload' & Hid' & ->).
  rewrite Hid. simpl. by eapply IH.
Qed.

(** C1 (as amended).  Notify-once: take an identifier and consecutive runs,
    at least one, each of which gets through (the store answers, the ledger
    file is read and written back, the location loads) on a feed whose
    vehicle crashes include the identifier.  If the identifier is not in
    the set the first run loads, exactly one new-incident notification is
    sent for it over all the runs, and it is sent by the first run; if it is
    in that set, none is sent.  In every run, whatever fails, the loop sends
    at most one new-incident notification for an identifier. *)
Theorem notify_once (id : Z) (e : Env) (es : list Env) (w : World)
    (sentIDs : IDSet) :
  Forall (steadyRun id) (e :: es) ->
  loadSentIncidents true (ledger_file w) = inl sentIDs ->
  (index sentIDs id = false ->
     totalNew id (runs (e :: es) w) = 1%nat
     /\ countEvents (isNotifyNewFor id) (trace (main e w)) = 1%nat)
  /\ (index sentIDs id = true -> totalNew id (runs (e :: es) w) = 0%nat)
  /\ (forall e' w' sent' all',
        (countEvents (isNotifyNewFor id) (trace (reconcile e' w' sent' all')) <= 1)%nat).
Proof.
  intros Hall Hload. split; [|split].
  - intros Hid. apply Forall_cons in Hall as [He Hall]. simpl.
    destruct (steady_run_step id e w sentIDs He Hload)
      as (sent' & Hload' & Hid' & Hcount).
    rewrite Hcount, Hid.
    by rewrite (steady_runs_marked id es Hall _ _ Hload' Hid').
  - intros Hid. by eapply steady_runs_marked.
  - intros e' w' sent' all'. rewrite count_new_reconcile.
    apply loop_at_most_once.
Qed.

Lemma calm_steady (id : Z) (l : list Incident.t) :
  id ∈ Incident.ID <$> vehicleCrashesOf l ->
  Forall (fun c => is_int (Incident.ID c)) l ->
  steadyRun id (calm l).
Proof. intros Hin Hint. repeat split. by exists l. Qed.

Lemma crash1_steady : steadyRun 1 (calm [crash 1]).
Proof.
  apply calm_steady.
  - vm_compute. apply list_elem_of_here.
  - repeat constructor; vm_compute; discriminate.
Qed.

(** Three runs on a feed that holds crash 1, from an empty ledger. *)
Lemma notify_once_witness :
  totalNew 1 (runs [calm [crash 1]; calm [crash 1]; calm [crash 1]] emptyWorld)
  = 1%nat.
Proof.
  assert (Hidx : index (∅ : IDSet) 1 = false) by (vm_compute; reflexivity).
  destruct (notify_once 1 (calm [crash 1]) [calm [crash 1]; calm [crash 1]]
              emptyWorld ∅
              (Forall_cons_2 _ _ _ crash1_steady
                 (Forall_cons_2 _ _ _ crash1_steady
                    (Forall_cons_2 _ _ _ crash1_steady (Forall_nil_2 _))))
              eq_refl)
    as ((Htotal & _) & _).
  - exact Hidx.
  - exact Htotal.
Defined.

(** C1 (as stated) fails.  First: crash 1 is in the feed and not in the
    loaded set, the location does not load, and the run sends no
    notification for it.  Second: crash 7 is in the feed of two consecutive
    runs and already in the ledger, and no notification is sent for it.
    Third: crash 1 is in the feed of two consecutive runs, the first run
    cannot write the ledger file, and both runs send the notification. *)
Lemma notify_once_counterexample :
  (1 ∈ Incident.ID <$> vehicleCrashesOf [crash 1]
   /\ loadSentIncidents true (ledger_file emptyWorld) = inl ∅
   /\ exit_status (main (noZone [crash 1]) emptyWorld) = 0
   /\ totalNew 1 (runs [noZone [crash 1]] emptyWorld) = 0%nat)
  /\ (7 ∈ Incident.ID <$> vehicleCrashesOf [crash 7]
      /\ totalNew 7 (runs [calm [crash 7]; calm [crash 7]] world7) = 0%nat)
  /\ totalNew 1 (runs [noWrite [crash 1]; calm [crash 1]] emptyWorld) = 2%nat.
Proof.
  repeat split; try (vm_compute; reflexivity);
    vm_compute; apply list_elem_of_here.
Qed.

(** * Further properties of the code *)

(** ** Start-up *)




(** ** The upsert statement, composed *)

Lemma execUpsert_idemp (db : Store) (i : Incident.t) :
  execUpsert (execUpsert db i) i = execUpsert db i.
Proof.
  unfold execUpsert at 1. rewrite execUpsert_same.
  unfold execUpsert. destruct (db !! Incident.ID i) as [old|];
    by rewrite insert_insert_eq.
Qed.

(** X3.  Upserting the same incident twice leaves the store as upserting it
    once does, whether or not a row was there; a failed upsert in between
    changes nothing. *)
Theorem upsert_idempotent (db : Store) (i : Incident.t) :
  (upsertIncident true (upsertIncident true db i).1 i).1
  = (upsertIncident true db i).1
  /\ (upsertIncident false db i).1 = db.
Proof. split; [apply execUpsert_idemp | done]. Qed.

Lemma execUpsert_commute (db : Store) (i j : Incident.t) :
  Incident.ID i <> Incident.ID j ->
  execUpsert (execUpsert db i) j = execUpsert (execUpsert db j) i.
Proof.
  intros Hne. apply map_eq. intros k.
  destruct (decide (k = Incident.ID i)) as [->|Hi].
  - rewrite (execUpsert_other (execUpsert db i) j) by done.
    rewrite !execUpsert_same.
    by rewrite (execUpsert_other db j) by done.
  - destruct (decide (k = Incident.ID j)) as [->|Hj].
    + rewrite (execUpsert_other (execUpsert db j) i) by done.
      rewrite !execUpsert_same.
      by rewrite (execUpsert_other db i) by done.
    + by rewrite !execUpsert_other by done.
Qed.

(** X4.  Upserts of incidents with different identifiers commute: the store
    they leave does not depend on their order. *)
Theorem upsert_commutes (db : Store) (i j : Incident.t) :
  Incident.ID i <> Incident.ID j ->
  (upsertIncident true (upsertIncident true db i).1 j).1
  = (upsertIncident true (upsertIncident true db j).1 i).1.
Proof. apply execUpsert_commute. Qed.

Lemma upsert_commutes_witness :
  (upsertIncident true (upsertIncident true (database world7) (crash 1)).1 (crash 7)).1
  = (upsertIncident true (upsertIncident true (database world7) (crash 7)).1 (crash 1)).1.
Proof. apply (upsert_commutes (database world7) (crash 1) (crash 7)). discriminate. Defined.

(** ** The clear pass, as a whole *)

(** What [clearOldCrashes] does to the row under [id]. *)
Lemma clearOldCrashes_lookup (e : Env) (db : Store) (cur : IDSet) (id : Z) :
  (clearOldCrashes e db cur).1.1 !! id = db !! id
  \/ exists row,
       db !! id = Some row
       /\ selectsActiveCrash row = true
       /\ index cur id = false
       /\ (clearOldCrashes e db cur).1.1 !! id = Some (markCleared (now e) row).
Proof.
  unfold clearOldCrashes. destruct (query_ok e); [|by left].
  rewrite clearCrashes_eq. simpl.
  destruct (exec_clear_ok e id) eqn:Hok; [|left; by apply clear_failed_lookup].
  destruct (decide (id ∈ ClearedIncident.ID <$> crashesToClear e db cur))
    as [Hin|Hout]; [|left; by apply clear_absent_lookup].
  right. pose proof Hin as Hid.
  apply list_elem_of_fmap in Hin as (c & -> & Hc).
  apply elem_of_crashesToClear in Hc as (Hq & _ & Hcur).
  apply elem_of_queryActiveCrashes in Hq as (row & Hrow & Hsel & _).
  exists row. repeat split; try done.
  by rewrite clear_done_lookup, Hrow.
Qed.

(** X5.  [clearOldCrashes] changes a row only if it is active, of category
    Vehicle Crash and its identifier is not in [currentCrashIDs], and then
    only its status and cleared time: a row of another category, a row
    already cleared and a row of a current crash are left as they were,
    whatever succeeds or fails, and no row is added or removed. *)
Theorem clear_pass_frame (e : Env) (db : Store) (currentCrashIDs : IDSet) :
  (forall id,
      (clearOldCrashes e db currentCrashIDs).1.1 !! id = db !! id
      \/ exists row,
           db !! id = Some row
           /\ status row = active
           /\ incident_type row = VehicleCrash
           /\ index currentCrashIDs id = false
           /\ (clearOldCrashes e db currentCrashIDs).1.1 !! id
              = Some (markCleared (now e) row))
  /\ dom (clearOldCrashes e db currentCrashIDs).1.1 = dom db.
Proof.
  split.
  - intros id.
    destruct (clearOldCrashes_lookup e db currentCrashIDs id)
      as [Hsame|(row & Hrow & Hsel & Hcur & Hnew)]; [by left|].
    right. exists row. unfold selectsActiveCrash in Hsel.
    apply andb_true_iff in Hsel as [Hst Hty]. apply String.eqb_eq in Hty.
    repeat split; try done. by destruct (status row).
  - apply set_eq. intros id. rewrite !elem_of_dom.
    destruct (clearOldCrashes_lookup e db currentCrashIDs id)
      as [->|(row & Hrow & _ & _ & ->)]; [done|].
    rewrite Hrow. split; by eexists.
Qed.

(** After a pass in which the query, the scans and the UPDATEs succeed, no
    active vehicle crash outside [cur] is left. *)
Lemma clearOldCrashes_leaves_none (e e' : Env) (db : Store) (cur : IDSet) :
  query_ok e = true ->
  (forall id, scan_ok e id = true) ->
  (forall id, exec_clear_ok e id = true) ->
  crashesToClear e' (clearOldCrashes e db cur).1.1 cur = [].
Proof.
  intros Hq Hscan Hclr. apply elem_of_nil_inv. intros c Hc.
  apply elem_of_crashesToClear in Hc as (Hsel' & _ & Hcur).
  apply elem_of_queryActiveCrashes in Hsel' as (row' & Hrow' & Hsel' & _).
  destruct (clearOldCrashes_lookup e db cur (ClearedIncident.ID c))
    as [Hsame|(row & _ & _ & _ & Hnew)].
  - rewrite Hsame in Hrow'.
    assert (Hin : projectRow (ClearedIncident.ID c, row') ∈ crashesToClear e db cur).
    { apply elem_of_crashesToClear. repeat split; try done.
      apply elem_of_queryActiveCrashes. by exists row'. }
    assert (Hdone : (clearOldCrashes e db cur).1.1 !! ClearedIncident.ID c
                    = markCleared (now e) <$> db !! ClearedIncident.ID c).
    { rewrite clearOldCrashes_ok by done. simpl.
      apply clear_done_lookup; [done|].
      by apply (list_elem_of_fmap_2' _ _ (projectRow (ClearedIncident.ID c, row'))). }
    rewrite Hsame, Hrow' in Hdone. simpl in Hdone. injection Hdone as Hdone.
    rewrite Hdone in Hsel'. discriminate.
  - rewrite Hnew in Hrow'. injection Hrow' as <-. discriminate.
Qed.

(** X6.  After a clear pass in which the query, the scans and the UPDATEs
    succeed, no active Vehicle Crash row is left outside [currentCrashIDs],
    so a second pass with the same identifiers finds nothing to clear: it
    leaves the store as it is and sends no notification. *)
Theorem clear_pass_settles (e e' : Env) (db : Store) (currentCrashIDs : IDSet) :
  query_ok e = true ->
  (forall id, scan_ok e id = true) ->
  (forall id, exec_clear_ok e id = true) ->
  let db' := (clearOldCrashes e db currentCrashIDs).1.1 in
  (forall id row, db' !! id = Some row -> status row = active ->
                  incident_type row = VehicleCrash ->
                  index currentCrashIDs id = true)
  /\ (query_ok e' = true ->
      clearOldCrashes e' db' currentCrashIDs = (db', [QueryActive true], true)).
Proof.
  intros Hq Hscan Hclr db'. split.
  - intros id row Hrow Hst Hty.
    destruct (index currentCrashIDs id) eqn:Hcur; [done|]. exfalso.
    assert (Hin : projectRow (id, row) ∈ crashesToClear e db' currentCrashIDs).
    { apply elem_of_crashesToClear. repeat split; try done.
      apply elem_of_queryActiveCrashes. exists row. repeat split; [done|].
      unfold selectsActiveCrash. by rewrite Hst, Hty, String.eqb_refl. }
    subst db'. rewrite clearOldCrashes_leaves_none in Hin by done.
    by apply elem_of_nil in Hin.
  - intros Hq'. rewrite clearOldCrashes_ok by done.
    subst db'. by rewrite clearOldCrashes_leaves_none.
Qed.

(** Crash 7 is stored as active and the feed is empty: the first pass
    clears it, the second has nothing to do. *)
Lemma clear_pass_settles_witness :
  clearOldCrashes (calm [])
    (clearOldCrashes (calm []) (database world7) ∅).1.1 ∅
  = ((clearOldCrashes (calm []) (database world7) ∅).1.1,
     [QueryActive true], true).
Proof.
  destruct (clear_pass_settles (calm []) (calm []) (database world7) ∅
              eq_refl (fun _ => eq_refl) (fun _ => eq_refl)) as [_ Hagain].
  exact (Hagain eq_refl).
Defined.

Lemma count_le_one (id : Z) (l : list ClearedIncident.t) :
  NoDup (ClearedIncident.ID <$> l) ->
  (length (filter (fun c => ClearedIncident.ID c = id) l) <= 1)%nat.
Proof.
  intros Hnd. destruct (decide (id ∈ ClearedIncident.ID <$> l)) as [Hin|Hout].
  - by rewrite count_same_id.
  - rewrite count_absent_id by done. lia.
Qed.

Lemma count_mark_events (e : Env) (id : Z) (l : list ClearedIncident.t) :
  countEvents (isMarkClearedFor id) (concat (clearEvents e <$> l))
  = length (filter (fun c => ClearedIncident.ID c = id) l).
Proof.
  induction l as [|c l IH]; csimpl; [done|].
  rewrite countEvents_app, IH, filter_cons. unfold clearEvents.
  case_decide as Hid.
  - subst id. destruct (exec_clear_ok e (ClearedIncident.ID c));
      rewrite ?countEvents_cons, ?countEvents_nil; simpl;
      rewrite ?Z.eqb_refl; done.
  - apply Z.eqb_neq in Hid.
    destruct (exec_clear_ok e (ClearedIncident.ID c));
      rewrite ?countEvents_cons, ?countEvents_nil; simpl; rewrite ?Hid; done.
Qed.

Lemma clearOldCrashes_counts (e : Env) (db : Store) (cur : IDSet) (id : Z) :
  (countEvents (isNotifyClearedFor id) (clearOldCrashes e db cur).1.2
   <= countEvents (isMarkClearedFor id) (clearOldCrashes e db cur).1.2)%nat
  /\ (countEvents (isMarkClearedFor id) (clearOldCrashes e db cur).1.2 <= 1)%nat.
Proof.
  unfold clearOldCrashes. destruct (query_ok e); simpl.
  - rewrite clearCrashes_eq. simpl.
    rewrite !countEvents_cons, count_cleared_events, count_mark_events. simpl.
    pose proof (count_le_one id _ (crashesToClear_ids e db cur)).
    destruct (exec_clear_ok e id); lia.
  - rewrite !countEvents_cons, !countEvents_nil. simpl. lia.
Qed.

(** A run either stops at start-up or at the feed, or goes through
    [reconcile]. *)
Lemma main_cases (e : Env) (w : World) :
  main e w = fatal w
  \/ exists sentIDs all,
       completes e w sentIDs all /\ main e w = reconcile e w sentIDs all.
Proof.
  unfold main, completes.
  destruct (db_open_ok e), (db_ping_ok e); simpl; try by left.
  destruct (loadSentIncidents _ _) as [sentIDs|err]; [|by left].
  destruct (feed e) as [| | |all]; try by left.
  right. by exists sentIDs, all.
Qed.

(** X7.  In every run, whatever succeeds or fails, an identifier is sent to
    be marked cleared at most once and its cleared notification is sent at
    most once, and never more often than the identifier is sent to be
    marked. *)
Theorem clearance_at_most_once (e : Env) (w : World) (id : Z) :
  (countEvents (isMarkClearedFor id) (trace (main e w)) <= 1)%nat
  /\ (countEvents (isNotifyClearedFor id) (trace (main e w))
      <= countEvents (isMarkClearedFor id) (trace (main e w)))%nat.
Proof.
  destruct (main_cases e w) as [->|(sentIDs & all & _ & ->)];
    [simpl; rewrite !countEvents_nil; lia|].
  rewrite reconcile_eq. simpl. rewrite !countEvents_app.
  rewrite !(count_loop_events _ _ (loopEvents_are_loop_events _ _ _ _))
    by (by intros []).
  rewrite !countEvents_cons, !countEvents_nil. simpl.
  match goal with
  | |- context [clearOldCrashes ?e ?db ?cur] =>
      pose proof (clearOldCrashes_counts e db cur id)
  end.
  lia.
Qed.

(** ** What a run sends to the store *)

Lemma upserted_app (tr1 tr2 : list Event) :
  upserted (tr1 ++ tr2) = upserted tr1 ++ upserted tr2.
Proof. apply omap_app. Qed.

Lemma upserted_loop (e : Env) (l : list Incident.t) :
  forall n sent, upserted (concat (loopEvents e n l sent)) = l.
Proof.
  induction l as [|c l IH]; intros n sent; [done|].
  rewrite loopEvents_cons, upserted_app, IH. unfold iterationEvents.
  by destruct (notifies e n c sent).
Qed.

Lemma upserted_clear (tr : list Event) :
  Forall isClearEvent tr -> upserted tr = [].
Proof.
  induction 1 as [|ev tr Hev _ IH]; [done|].
  change (upserted (ev :: tr)) with (upserted ([ev] ++ tr)).
  rewrite upserted_app, IH. by destruct ev.
Qed.

Lemma upserts_are_the_vehicle_crashes_aux (e : Env) (w : World)
    (sentIDs : IDSet) (all : list Incident.t) :
  completes e w sentIDs all ->
  upserted (trace (main e w)) = vehicleCrashesOf all.
Proof.
  intros Hc. rewrite (main_completes _ _ _ _ Hc), reconcile_eq. simpl.
  rewrite !upserted_app, upserted_loop.
  rewrite (upserted_clear _ (clearOldCrashes_are_clear_events _ _ _)).
  by rewrite app_nil_r.
Qed.



Lemma dom_execUpsert (db : Store) (i : Incident.t) :
  dom (execUpsert db i) = {[ Incident.ID i ]} ∪ dom db.
Proof.
  unfold execUpsert. destruct (db !! Incident.ID i); apply dom_insert_L.
Qed.

Lemma processCrashes_dom (e : Env) (l : list Incident.t) :
  forall n s,
    dom (l_db s) ⊆ dom (l_db (processCrashes e n l s))
    /\ dom (l_db (processCrashes e n l s))
       ⊆ dom (l_db s) ∪ list_to_set (Incident.ID <$> l).
Proof.
  induction l as [|c l IH]; intros n s; [split; [done | apply union_subseteq_l]|].
  destruct (IH (S n) (processCrash e n c s)) as [IH1 IH2]. clear IH.
  assert (Hstep : dom (l_db s) ⊆ dom (l_db (processCrash e n c s))
                  /\ dom (l_db (processCrash e n c s))
                     ⊆ dom (l_db s) ∪ {[ Incident.ID c ]}).
  { rewrite processCrash_eq. simpl. unfold upsertIncident.
    destruct (exec_upsert_ok e n); simpl; rewrite ?dom_execUpsert; split;
      intros x; rewrite ?elem_of_union; tauto. }
  destruct Hstep as [Hs1 Hs2].
  change (processCrashes e n (c :: l) s)
    with (processCrashes e (S n) l (processCrash e n c s)).
  rewrite fmap_cons, list_to_set_cons. split.
  - by etrans.
  - intros x Hx. apply IH2 in Hx. apply elem_of_union in Hx as [Hx|Hx].
    + apply Hs2 in Hx. revert Hx. rewrite !elem_of_union. tauto.
    + rewrite !elem_of_union. tauto.
Qed.

Lemma clearOldCrashes_dom (e : Env) (db : Store) (cur : IDSet) :
  dom (clearOldCrashes e db cur).1.1 = dom db.
Proof.
  apply set_eq. intros id. rewrite !elem_of_dom.
  destruct (clearOldCrashes_lookup e db cur id)
    as [->|(row & Hrow & _ & _ & ->)]; [done|].
  rewrite Hrow. split; by eexists.
Qed.

(** X9.  No run removes a row from the store: every identifier stored
    before the run is stored after it, and an identifier stored after the
    run was stored before or is that of an incident the run upserted. *)
Theorem run_never_deletes (e : Env) (w : World) :
  dom (database w) ⊆ dom (database (final (main e w)))
  /\ dom (database (final (main e w)))
     ⊆ dom (database w)
       ∪ list_to_set (Incident.ID <$> upserted (trace (main e w))).
Proof.
  destruct (main_cases e w) as [->|(sentIDs & all & Hc & Hmain)];
    [split; [done | apply union_subseteq_l]|].
  rewrite (upserts_are_the_vehicle_crashes_aux e w sentIDs all Hc).
  rewrite Hmain, reconcile_eq. simpl. rewrite clearOldCrashes_dom.
  apply (processCrashes_dom e (vehicleCrashesOf all) 0
           (mkLoop (database w) sentIDs [])).
Qed.






(** ** What a run does to the ledger *)


Lemma loop_notify_unsent (e : Env) (l : list Incident.t)
    (c : Incident.t) (t : string) :
  forall n sent,
    NotifyNew c t ∈ concat (loopEvents e n l sent) ->
    index sent (Incident.ID c) = false.
Proof.
  induction l as [|c' l IH]; intros n sent Hin; [by apply elem_of_nil in Hin|].
  rewrite loopEvents_cons in Hin. apply elem_of_app in Hin as [Hin|Hin].
  - unfold iterationEvents in Hin.
    apply elem_of_cons in Hin as [Hin|Hin]; [discriminate|].
    destruct (notifies e n c' sent) eqn:Hnot; [|by apply elem_of_nil in Hin].
    apply list_elem_of_singleton in Hin. injection Hin as -> _.
    unfold notifies in Hnot. apply andb_true_iff in Hnot as [Hnot _].
    by apply negb_true_iff in Hnot.
  - apply IH in Hin. rewrite index_markSent in Hin.
    by apply orb_false_iff in Hin as [Hin _].
Qed.



(** X13.  A new-incident notification is never sent for an identifier the
    loaded ledger holds, also when the incident was cleared in between and
    is back in the feed. *)
Theorem known_identifier_not_notified (e : Env) (w : World)
    (sentIDs : IDSet) (all : list Incident.t) (id : Z) :
  completes e w sentIDs all ->
  index sentIDs id = true ->
  countEvents (isNotifyNewFor id) (trace (main e w)) = 0%nat
  /\ (forall c t, NotifyNew c t ∈ trace (main e w) -> Incident.ID c <> id).
Proof.
  intros Hc Hid. rewrite (main_completes _ _ _ _ Hc). split.
  - rewrite count_new_reconcile.
    by destruct (loop_marked e id (vehicleCrashesOf all) 0 sentIDs Hid).
  - intros c t Hin Heq. apply reconcile_loop_event in Hin; [|exact I].
    apply loop_notify_unsent in Hin. congruence.
Qed.

(** Crash 7 was cleared, is in the ledger, and is back in the feed. *)
Lemma known_identifier_not_notified_witness :
  countEvents (isNotifyNewFor 7)
    (trace (main (calm [crash 7])
              (mkWorld {[ 7 := markCleared 5 (insertedRow (crash 7)) ]}
                       (Some (json.MarshalIndent {[ 7 := true ]})))))
  = 0%nat.
Proof.
  apply (known_identifier_not_notified (calm [crash 7])
           (mkWorld {[ 7 := markCleared 5 (insertedRow (crash 7)) ]}
                    (Some (json.MarshalIndent {[ 7 := true ]})))
           {[ 7 := true ]} [crash 7] 7).
  - repeat split; vm_compute; reflexivity.
  - vm_compute. reflexivity.
Defined.

(** ** Two runs on the same feed *)

Lemma loop_marks_feed (e : Env) (id : Z) (l : list Incident.t) :
  (forall n, load_location_ok e n = true) ->
  id ∈ Incident.ID <$> l ->
  forall n sent, index (loopSent e n l sent) id = true.
Proof.
  intros Hloc Hin n sent. destruct (index sent id) eqn:Hid.
  - by destruct (loop_marked e id l n sent Hid).
  - by destruct (loop_unmarked e id l Hloc n sent Hid Hin).
Qed.

Lemma loop_quiet (e : Env) (l : list Incident.t) (sent : IDSet) :
  (forall c, c ∈ l -> index sent (Incident.ID c) = true) ->
  forall n, Forall isQuiet (concat (loopEvents e n l sent)).
Proof.
  intros Hsent n. apply Forall_forall. intros ev Hin.
  pose proof (loopEvents_are_loop_events e l n sent) as Hall.
  rewrite Forall_forall in Hall. specialize (Hall ev Hin).
  destruct ev as [c ok|c t| | | |]; try done.
  pose proof (elem_of_loopEvents_notify e l c t n sent Hin) as [Hc _].
  apply loop_notify_unsent in Hin. rewrite (Hsent c Hc) in Hin. discriminate.
Qed.

Lemma clearOldCrashes_nothing (e : Env) (db : Store) (cur : IDSet) :
  crashesToClear e db cur = [] ->
  Forall isQuiet (clearOldCrashes e db cur).1.2
  /\ (clearOldCrashes e db cur).1.1 = db.
Proof.
  intros Hnone. unfold clearOldCrashes. destruct (query_ok e); simpl.
  - rewrite Hnone. simpl. by repeat constructor.
  - by repeat constructor.
Qed.

(** X14.  Two runs on the same feed: when the first gets through with the
    location loading, the ledger written and the clear pass succeeding, a
    second run that reaches the loop sends no notification of either kind
    and marks nothing cleared; all it does is upsert the vehicle crashes
    again, query the active crashes and write the ledger. *)
Theorem second_run_is_quiet (e1 e2 : Env) (w : World) (sentIDs : IDSet)
    (all : list Incident.t) :
  completes e1 w sentIDs all ->
  Forall (fun c => is_int (Incident.ID c)) all ->
  (forall n, load_location_ok e1 n = true) ->
  write_file_ok e1 = true ->
  query_ok e1 = true ->
  (forall id, scan_ok e1 id = true) ->
  (forall id, exec_clear_ok e1 id = true) ->
  db_open_ok e2 = true -> db_ping_ok e2 = true -> read_file_ok e2 = true ->
  feed e2 = Decoded all ->
  exit_status (main e2 (final (main e1 w))) = 0
  /\ Forall isQuiet (trace (main e2 (final (main e1 w)))).
Proof.
  intros Hc Hint Hloc Hwrite Hq Hscan Hclr Hopen Hping Hread Hfeed.
  set (vc := vehicleCrashesOf all).
  set (cur := currentCrashIDsOf vc).
  set (db1 := l_db (processCrashes e1 0 vc (mkLoop (database w) sentIDs []))).
  set (sent1 := loopSent e1 0 vc sentIDs).
  assert (Hw1 : final (main e1 w)
                = mkWorld (clearOldCrashes e1 db1 cur).1.1
                          (Some (json.MarshalIndent sent1))).
  { rewrite (main_completes _ _ _ _ Hc), reconcile_eq. simpl.
    unfold saveSentIncidents. rewrite Hwrite, processCrashes_sent. done. }
  rewrite Hw1.
  assert (Hc2 : completes e2
                  (mkWorld (clearOldCrashes e1 db1 cur).1.1
                           (Some (json.MarshalIndent sent1))) sent1 all).
  { repeat split; try done. rewrite Hread. simpl.
    apply load_saved, loopSent_int;
      [by apply vehicleCrashesOf_int|].
    destruct Hc as (_ & _ & Hload & _). by eapply loadSentIncidents_int. }
  rewrite (main_completes _ _ _ _ Hc2), reconcile_eq. simpl.
  split; [done|]. fold vc cur.
  set (db2 := l_db (processCrashes e2 0 vc
                      (mkLoop (clearOldCrashes e1 db1 cur).1.1 sent1 []))).
  assert (Hnone : crashesToClear e2 db2 cur = []).
  { apply elem_of_nil_inv. intros c Hin.
    apply elem_of_crashesToClear in Hin as (Hsel & _ & Hcur).
    apply elem_of_queryActiveCrashes in Hsel as (row & Hrow & Hsel & _).
    assert (Hout : ClearedIncident.ID c ∉ Incident.ID <$> vc).
    { intros Hin. apply index_currentCrashIDsOf in Hin. fold cur in Hin. congruence. }
    subst db2. rewrite processCrashes_db_other in Hrow by done. simpl in Hrow.
    assert (Hin : projectRow (ClearedIncident.ID c, row)
                  ∈ crashesToClear e1 (clearOldCrashes e1 db1 cur).1.1 cur).
    { apply elem_of_crashesToClear. repeat split; try done.
      apply elem_of_queryActiveCrashes. by exists row. }
    rewrite clearOldCrashes_leaves_none in Hin by done.
    by apply elem_of_nil in Hin. }
  apply Forall_app. split; [|apply Forall_app; split].
  - apply loop_quiet. intros c Hin. subst sent1. apply loop_marks_feed; [done|].
    by apply list_elem_of_fmap_2.
  - by apply clearOldCrashes_nothing.
  - by repeat constructor.
Qed.

(** Crash 7 has left the feed and crash 1 is new: the first run notifies
    both facts, the second has nothing to tell. *)
Lemma second_run_is_quiet_witness :
  Forall isQuiet
    (trace (main (calm [crash 1]) (final (main (calm [crash 1]) world7)))).
Proof.
  apply (second_run_is_quiet (calm [crash 1]) (calm [crash 1]) world7
           {[ 7 := true ]} [crash 1] (world7_completes _)).
  - repeat constructor; vm_compute; discriminate.
  - reflexivity.
  - reflexivity.
  - reflexivity.
  - reflexivity.
  - reflexivity.
  - reflexivity.
  - reflexivity.
  - reflexivity.
  - reflexivity.
Defined.

(** ** Columns no run changes *)

Lemma kept_refl (row : StoredIncident) : kept row row.
Proof. by repeat split. Qed.

Lemma kept_trans (r1 r2 r3 : StoredIncident) :
  kept r1 r2 -> kept r2 r3 -> kept r1 r3.
Proof. unfold kept. intros H1 H2. intuition congruence. Qed.

Lemma execUpsert_kept (db : Store) (i : Incident.t) (id : Z) (row : StoredIncident) :
  db !! id = Some row ->
  exists row', execUpsert db i !! id = Some row' /\ kept row' row.
Proof.
  intros Hrow. destruct (decide (id = Incident.ID i)) as [->|Hne].
  - rewrite execUpsert_same, Hrow. eexists. split; [done|]. by repeat split.
  - rewrite execUpsert_other, Hrow by done. eexists. split; [done|].
    apply kept_refl.
Qed.

Lemma loop_kept (e : Env) (l : list Incident.t) (id : Z) :
  forall n s row,
    l_db s !! id = Some row ->
    exists row', l_db (processCrashes e n l s) !! id = Some row' /\ kept row' row.
Proof.
  induction l as [|c l IH]; intros n s row Hrow; simpl.
  - exists row. split; [done | apply kept_refl].
  - assert (Hstep : exists row1, l_db (processCrash e n c s) !! id = Some row1
                                 /\ kept row1 row).
    { rewrite processCrash_eq. simpl. unfold upsertIncident.
      destruct (exec_upsert_ok e n); simpl; [by apply execUpsert_kept|].
      exists row. split; [done | apply kept_refl]. }
    destruct Hstep as (row1 & Hrow1 & Hk1).
    destruct (IH (S n) _ _ Hrow1) as (row' & Hrow' & Hk').
    exists row'. split; [done | by eapply kept_trans].
Qed.

(** X15.  Once a row is stored, no run changes its common name, direction,
    location, county, city, start time, road, route, total lanes, cross
    street, event, concurrency flag, movable construction or work zone
    speed limit: they stay as the first upsert wrote them, whatever later
    feeds say, and a later cleared notification reports the road, location
    and city of that first upsert. *)
Theorem identity_columns_frozen (e : Env) (w : World) (id : Z)
    (row : StoredIncident) :
  database w !! id = Some row ->
  exists row',
    database (final (main e w)) !! id = Some row'
    /\ kept row' row
    /\ (forall c, NotifyCleared c ∈ trace (main e w) ->
                  ClearedIncident.ID c = id ->
                  c = ClearedIncident.mk id (road row) (location row) (city row)).
Proof.
  intros Hrow.
  destruct (main_cases e w) as [->|(sentIDs & all & _ & ->)].
  { exists row. split; [done|]. split; [apply kept_refl|].
    intros c Hin. by apply elem_of_nil in Hin. }
  rewrite reconcile_eq. simpl.
  destruct (loop_kept e (vehicleCrashesOf all) id 0
              (mkLoop (database w) sentIDs []) row Hrow)
    as (row1 & Hrow1 & Hk1).
  set (db1 := l_db (processCrashes e 0 (vehicleCrashesOf all)
                      (mkLoop (database w) sentIDs []))) in *.
  set (cur := currentCrashIDsOf (vehicleCrashesOf all)).
  assert (Hfinal : exists row', (clearOldCrashes e db1 cur).1.1 !! id = Some row'
                                /\ kept row' row).
  { destruct (clearOldCrashes_lookup e db1 cur id)
      as [->|(r & Hr & _ & _ & ->)]; [by exists row1|].
    rewrite Hrow1 in Hr. injection Hr as <-.
    eexists. split; [done|]. eapply kept_trans; [|exact Hk1]. by repeat split. }
  destruct Hfinal as (row' & Hrow' & Hk').
  exists row'. split; [done|]. split; [done|].
  intros c Hin Hid.
  assert (Hc : c ∈ crashesToClear e db1 cur).
  { apply elem_of_app in Hin as [Hin|Hin].
    { pose proof (loopEvents_are_loop_events e (vehicleCrashesOf all) 0 sentIDs)
        as Hall.
      rewrite Forall_forall in Hall. by apply Hall in Hin. }
    apply elem_of_app in Hin as [Hin|Hin];
      [|apply list_elem_of_singleton in Hin; discriminate].
    unfold clearOldCrashes in Hin. destruct (query_ok e); simpl in Hin;
      [|apply list_elem_of_singleton in Hin; discriminate].
    rewrite clearCrashes_eq in Hin. simpl in Hin.
    apply elem_of_cons in Hin as [Hin|Hin]; [discriminate|].
    by apply elem_of_clear_events in Hin as [Hin _]. }
  apply elem_of_crashesToClear in Hc as (Hq & _ & _).
  apply elem_of_queryActiveCrashes in Hq as (r & Hr & _ & Hproj).
  rewrite Hid, Hrow1 in Hr. injection Hr as <-.
  rewrite Hproj, Hid. unfold projectRow. simpl.
  destruct Hk1 as (_ & _ & Hloc & _ & _ & Hcity & _ & Hroad & _).
  by rewrite Hloc, Hcity, Hroad.
Qed.

(** Crash 7 is stored with road I-40; the feed now reports it on another
    road and with another start time. *)
Lemma identity_columns_frozen_witness :
  exists row',
    database (final (main (calm [sample 7 VehicleCrash "2025-01-01T00:00:00Z"])
                          world7)) !! 7 = Some row'
    /\ start_time row' = "not a date"%string.
Proof.
  assert (Hrow : database world7 !! 7 = Some (insertedRow (crash 7)))
    by (vm_compute; reflexivity).
  destruct (identity_columns_frozen
              (calm [sample 7 VehicleCrash "2025-01-01T00:00:00Z"]) world7 7
              (insertedRow (crash 7)) Hrow) as (row' & Hrow' & Hk & _).
  exists row'. split; [exact Hrow'|].
  destruct Hk as (_ & _ & _ & _ & _ & _ & Hstart & _). exact Hstart.
Defined.
